(** * jsondbfs-mongo: the Collection engine and the Memory driver

    A shallow embedding of [lib/collection.js] and of the Memory driver,
    followed by the properties of the specification that were checked
    against it.

    Conventions of the embedding.
    - Stored data are JSON values.  JavaScript numbers are represented by
      [Z]: the integer fragment, on which [+=] is exact.
    - A document is an ordered mapping from field names to values, kept as
      an association list in insertion order (the order [for .. in]
      enumerates).  Names inherited from [Object.prototype] are not
      modelled.
    - An element of the persisted array is a document or [null]; [null]
      is what an [undefined] array element becomes once serialised.
    - A promise is settled at most once: the first [resolve] or [reject]
      wins and the executor keeps running after it.
    - The arguments of a call are values: an object handed to a call is
      that call's own, and what the call assigns to it ([_id]) is
      returned explicitly where the caller sees it.  One object handed
      to several calls in flight is not represented. *)

From stdpp Require Import base list strings gmap.
From Stdlib Require Import ZArith.

Open Scope string_scope.
Open Scope list_scope.

(** ** JSON values and documents *)

#[warnings="-register-all"]
Inductive value : Type :=
| VNull
| VBool (b : bool)
| VNum (n : Z)
| VStr (s : string)
| VArr (l : list value)
| VObj (o : list (string * value)).

Abbreviation doc := (list (string * value)).

(** An element of the stored array. *)
Inductive entry : Type :=
| Null
| Doc (d : doc).

(** [d[k]]; [None] stands for [undefined]. *)
Fixpoint get_field (d : doc) (k : string) : option value :=
  match d with
  | [] => None
  | (k', v) :: rest => if String.eqb k' k then Some v else get_field rest k
  end.

(** [d[k] = v]: an existing field keeps its position, a new one goes last. *)
Fixpoint set_field (d : doc) (k : string) (v : value) : doc :=
  match d with
  | [] => [(k, v)]
  | (k', v') :: rest =>
      if String.eqb k' k then (k, v) :: rest else (k', v') :: set_field rest k v
  end.

(** [v instanceof Object] on a JSON value: objects and arrays. *)
Definition instanceof_Object (v : value) : bool :=
  match v with
  | VObj _ | VArr _ => true
  | _ => false
  end.

(** [v['$inc']] when ['$inc' in v], for [v instanceof Object]. *)
Definition inc_operand (v : value) : option value :=
  match v with
  | VObj o => get_field o "$inc"
  | _ => None
  end.

(** Truthiness of a value that may be [undefined]. *)
Definition truthy (v : option value) : bool :=
  match v with
  | None | Some VNull | Some (VBool false) | Some (VNum 0) | Some (VStr "") => false
  | Some _ => true
  end.

(** [a === b]: primitives compare by value, objects and arrays by
    reference.  The values compared below come from different parsed
    documents, so two objects or two arrays are never the same
    reference. *)
Definition strict_eq (a b : option value) : bool :=
  match a, b with
  | None, None => true
  | Some VNull, Some VNull => true
  | Some (VBool x), Some (VBool y) => Bool.eqb x y
  | Some (VNum x), Some (VNum y) => Z.eqb x y
  | Some (VStr x), Some (VStr y) => String.eqb x y
  | _, _ => false
  end.

(** ** Arguments, options, rejection reasons, results *)

(** An argument as the public functions test it: absent (or falsy), a
    legacy callback function, or the value itself. *)
Inductive arg (A : Type) : Type :=
| Missing
| Callback
| Given (a : A).
Arguments Missing {A}.
Arguments Callback {A}.
Arguments Given {A} a.

Definition given {A} (a : arg A) : option A :=
  match a with
  | Given x => Some x
  | _ => None
  end.

Definition is_callback {A} (a : arg A) : bool :=
  match a with
  | Callback => true
  | _ => false
  end.

Record options : Type := Options {
  multi : bool;
  upsert : bool;
  retObj : bool;
  new : bool
}.

(** What [insert] accepts: one document or an array of documents. *)
Inductive payload : Type :=
| One (d : doc)
| Many (ds : list doc).

(** The value a promise is rejected with.  Message strings are kept as
    constructors, with the interpolated data as arguments. *)
Inductive reason : Type :=
| NoCriteria                      (* 'No criteria specified!' *)
| NoUpdateCriteria                (* 'No update criteria specified!' *)
| NoData                          (* 'No data passed to persist!' *)
| NotAnArray                      (* 'Data should be a non-empty array of objects!' *)
| BadField                        (* 'Field should be a non-empty string!' *)
| NotNumeric (propertyName : string) (current : option value) (incValue : value)
| NotNumericAll                   (* the message of the update-all branch *)
| Unsupported (operator : value)  (* 'Unsupported update operator: ...' *)
| LockFailed (e : string)         (* the error handed over by lock *)
| ReadFailed (e : string)         (* the error handed over by get *)
| WriteFailed (e : string)        (* the error handed over by set *)
| ReferenceError                  (* assignment to the undeclared [callback] *)
| TypeError.



Record counts : Type := Counts {
  nMatched : nat;
  nModified : nat;
  nUpserted : nat
}.

Inductive result : Type :=
| RCounts (ret : counts)
| RDocs (ds : list entry)
| REntry (e : entry)
| RSpec (updateCriteria : option doc)
| RData (data : payload)
| RTrue
| RLength (n : nat)
| RValues (vs : list value).

Inductive settled : Type :=
| Resolved (r : result)
| Rejected (e : reason).

(** [None]: still pending. *)
Abbreviation promise := (option settled).

Definition settle (s : settled) (p : promise) : promise :=
  match p with
  | None => Some s
  | Some _ => p
  end.

Definition resolve (r : result) : promise -> promise := settle (Resolved r).
Definition reject (e : reason) : promise -> promise := settle (Rejected e).

(** ** The data handler

    [lib/dataHandler.js] and the file system layer of the drivers are not
    among the sources at hand; the four operations follow the Storage
    Backend contract of the specification.  The outcome of each call
    that may fail is taken from [faults], one element per call, oldest
    first; an exhausted list means success. *)

Inductive event : Type :=
| EvLock (granted : bool)
| EvGet (ok : bool)
| EvSet (ok : bool) (documents : list entry)
| EvUnlock.

Record world : Type := World {
  store : list entry;
  held : bool;
  faults : list (option string);
  journal : list event;
  issued : nat            (* identifiers drawn from [util.generateUUID] *)
}.

Definition next_fault (w : world) : option string * world :=
  match faults w with
  | [] => (None, w)
  | f :: fs => (f, World (store w) (held w) fs (journal w) (issued w))
  end.

Definition record_event (ev : event) (w : world) : world :=
  World (store w) (held w) (faults w) (journal w ++ [ev]) (issued w).

Inductive lock_outcome : Type :=
| Blocked                (* the callback is not called: somebody holds the lock *)
| Refused (e : string)   (* the callback is called with an error *)
| Granted.

(** Modelled from the spec: [_dataHandler.lock] (lib/dataHandler.js is
    missing).  "Blocks/suspends until no other holder exists for this
    Collection's backend; fails if the underlying medium cannot grant
    exclusivity." *)
Definition lock (w : world) : lock_outcome * world :=
  if held w then (Blocked, w)
  else
    match next_fault w with
    | (Some e, w) => (Refused e, record_event (EvLock false) w)
    | (None, w) =>
        (Granted,
         record_event (EvLock true)
           (World (store w) true (faults w) (journal w) (issued w)))
    end.

(** Modelled from the spec: [_dataHandler.unlock] (lib/dataHandler.js is
    missing).  "Must be idempotent-safe to call even if acquisition
    partially failed; never fails the caller." *)
Definition unlock (w : world) : world :=
  record_event EvUnlock (World (store w) false (faults w) (journal w) (issued w)).

(** Modelled from the spec: [_dataHandler.get] (lib/dataHandler.js is
    missing).  "Returns the complete current set, in stored order", or
    an error. *)
Definition get (w : world) : (string + list entry) * world :=
  match next_fault w with
  | (Some e, w) => (inl e, record_event (EvGet false) w)
  | (None, w) => (inr (store w), record_event (EvGet true) w)
  end.

(** Modelled from the spec: [_dataHandler.set] (lib/dataHandler.js is
    missing).  "Atomically replaces the entire persisted set", or fails
    with the set as it was. *)
Definition set (documents : list entry) (w : world) : option string * world :=
  match next_fault w with
  | (Some e, w) => (Some e, record_event (EvSet false documents) w)
  | (None, w) =>
      (None,
       record_event (EvSet true documents)
         (World documents (held w) (faults w) (journal w) (issued w)))
  end.

Definition take_id (w : world) : world :=
  World (store w) (held w) (faults w) (journal w) (S (issued w)).

(** ** Pure parts of the operations *)

(** [insert]: [data._id = id].  On an array the assignment creates a
    property of the array object itself, which [_.flatten] (and the
    serialisation) drops: the elements are left as they are. *)
Definition stamp (data : payload) (id : string) : payload :=
  match data with
  | One d => One (set_field d "_id" (VStr id))
  | Many ds => Many ds
  end.

(** [insert]: [documents.push(data)], then [_.flatten(documents)] when
    [data] is an array. *)
Definition push_data (documents : list entry) (data : payload) : list entry :=
  match data with
  | One d => documents ++ [Doc d]
  | Many ds => documents ++ map Doc ds
  end.

(** The statements run on one document return normally, or leave the
    callback through [reject(...); return], or raise a TypeError. *)
Inductive applied : Type :=
| Updated (document : entry)
| Refuse (r : reason)
| Throws.

(** [update], lines 261-282: the [for .. in] over the update
    specification applied to one matched document. *)
Fixpoint apply_update (spec : doc) (document : entry) : applied :=
  match spec with
  | [] => Updated document
  | (propertyName, v) :: rest =>
      if instanceof_Object v then
        match inc_operand v with
        | Some incValue =>
            match document with
            | Null => Throws
            | Doc d =>
                match get_field d propertyName, incValue with
                | Some (VNum cur), VNum inc =>
                    apply_update rest (Doc (set_field d propertyName (VNum (cur + inc))))
                | cur, _ => Refuse (NotNumeric propertyName cur incValue)
                end
            end
        | None => Refuse (Unsupported v)
        end
      else
        match document with
        | Null => Throws
        | Doc d => apply_update rest (Doc (set_field d propertyName v))
        end
  end.

(** [update], lines 303-318: the callback of [documents.map] in the
    update-all branch.  An operator object without [$inc] is assigned
    like a plain value here. *)
Fixpoint apply_update_all (spec : doc) (document : entry) : applied :=
  match spec with
  | [] => Updated document
  | (propertyName, v) :: rest =>
      match (if instanceof_Object v then inc_operand v else None) with
      | Some incValue =>
          match document with
          | Null => Throws
          | Doc d =>
              match get_field d propertyName, incValue with
              | Some (VNum cur), VNum inc =>
                  apply_update_all rest (Doc (set_field d propertyName (VNum (cur + inc))))
              | _, _ => Refuse NotNumericAll
              end
          end
      | None =>
          match document with
          | Null => Throws
          | Doc d => apply_update_all rest (Doc (set_field d propertyName v))
          end
      end
  end.

(** [documents.map(...)] of the update-all branch: a refused document
    rejects the promise and leaves [undefined] in the new array; a
    TypeError ends the whole callback ([None]). *)
Fixpoint update_all (spec : doc) (documents : list entry) (p : promise)
  : option (list entry * promise) :=
  match documents with
  | [] => Some ([], p)
  | document :: rest =>
      match apply_update_all spec document with
      | Updated document' =>
          match update_all spec rest p with
          | Some (rest', p') => Some (document' :: rest', p')
          | None => None
          end
      | Refuse r =>
          match update_all spec rest (reject r p) with
          | Some (rest', p') => Some (Null :: rest', p')
          | None => None
          end
      | Throws => None
      end
  end.

(** [_.uniq]: keep the first of the values that are [===]. *)
Fixpoint uniq (vs : list (option value)) : list (option value) :=
  match vs with
  | [] => []
  | v :: rest => v :: List.filter (fun x => negb (strict_eq v x)) (uniq rest)
  end.

(** [_.compact]: drop every falsy value. *)
Fixpoint compact (vs : list (option value)) : list value :=
  match vs with
  | [] => []
  | Some v :: rest => if truthy (Some v) then v :: compact rest else compact rest
  | None :: rest => compact rest
  end.

(** [documents.map(d => d[field])]; [None] when a [null] element makes
    the property access raise. *)
Fixpoint pluck (field : string) (documents : list entry) : option (list (option value)) :=
  match documents with
  | [] => Some []
  | Null :: _ => None
  | Doc d :: rest =>
      match pluck field rest with
      | Some vs => Some (get_field d field :: vs)
      | None => None
      end
  end.

(** ** The operations of [Collection] *)

Section Collection.

(** [require('json-criteria-ext').test]: the criteria matcher, an
    external pure predicate.  The second argument is [None] when the
    operation passes [undefined]. *)
Variable matchCriteria : entry -> option doc -> bool.

(** [util.generateUUID], as the sequence of identifiers it hands out. *)
Variable generateUUID : nat -> string.

(** The default options of [update]. *)
Definition update_defaults : options := Options true false false false.

(** *** insert *)

Definition insert (data : arg payload) (w : world) : promise * world :=
  match data with
  | Given data =>
      let data := stamp data (generateUUID (issued w)) in
      let w := take_id w in
      match lock w with
      | (Blocked, w) => (None, w)
      | (outcome, w) =>
          let p :=
            match outcome with
            | Refused e => reject (LockFailed e) None
            | _ => None
            end in
          match get w with
          | (inl e, w) => (reject (ReadFailed e) p, unlock w)
          | (inr documents, w) =>
              match set (push_data documents data) w with
              | (Some e, w) => (reject (WriteFailed e) p, unlock w)
              | (None, w) => (resolve (RData data) p, unlock w)
              end
          end
      end
  | _ =>
      (* rejected, then [data._id = ...] raises on [undefined] *)
      (reject NoData None, w)
  end.

(** *** insertMany *)

(** [dataArr.forEach]: every element gets its own identifier. *)
Fixpoint stamp_all (ds : list doc) (n : nat) : list doc :=
  match ds with
  | [] => []
  | d :: rest => set_field d "_id" (VStr (generateUUID n)) :: stamp_all rest (S n)
  end.

Definition insertMany (dataArr : arg (list doc)) (w : world) : promise * world :=
  let p :=
    match dataArr with
    | Given (_ :: _) => None
    | _ => reject NotAnArray None
    end in
  match lock w with
  | (Blocked, w) => (p, w)
  | (outcome, w) =>
      let p :=
        match outcome with
        | Refused e => reject (LockFailed e) p
        | _ => p
        end in
      match get w with
      | (inl e, w) =>
          (* unlock and reject; the callback goes on with [documents]
             undefined: [forEach] is not a function, or the first
             [push] raises after an identifier was drawn, or (empty
             array) [set] is handed [undefined], which writes no
             document sequence *)
          (reject (ReadFailed e) p,
           match dataArr with
           | Given (_ :: _) => take_id (unlock w)
           | _ => unlock w
           end)
      | (inr documents, w) =>
          match dataArr with
          | Given ds =>
              let stamped := stamp_all ds (issued w) in
              let w := Nat.iter (length ds) take_id w in
              match set (documents ++ map Doc stamped) w with
              | (Some e, w) => (reject (WriteFailed e) p, unlock w)
              | (None, w) => (resolve (RData (Many stamped)) p, unlock w)
              end
          | _ =>
              (* [dataArr.forEach] is not a function: the lock stays *)
              (p, w)
          end
      end
  end.

(** *** update *)

Inductive scanned : Type :=
| Scanned (documents matchedDocuments : list entry)
| Aborted (r : reason)
| Crashed.

(** Lines 257-290: the loop over the documents read. *)
Fixpoint scan (criteria : option doc) (spec : doc) (multi : bool)
    (documents : list entry) : scanned :=
  match documents with
  | [] => Scanned [] []
  | document :: rest =>
      if matchCriteria document criteria then
        match apply_update spec document with
        | Updated document' =>
            if multi then
              match scan criteria spec multi rest with
              | Scanned rest' matchedDocuments =>
                  Scanned (document' :: rest') (document' :: matchedDocuments)
              | stopped => stopped
              end
            else Scanned (document' :: rest) [document']
        | Refuse r => Aborted r
        | Throws => Crashed
        end
      else
        match scan criteria spec multi rest with
        | Scanned rest' matchedDocuments => Scanned (document :: rest') matchedDocuments
        | stopped => stopped
        end
  end.

(** [for .. in] over [updateCriteria], which may be [undefined]. *)
Definition spec_entries (updateCriteria : option doc) : doc :=
  match updateCriteria with
  | Some spec => spec
  | None => []
  end.

Definition as_payload (updateCriteria : option doc) : arg payload :=
  match updateCriteria with
  | Some spec => Given (One spec)
  | None => Missing
  end.

(** The object [updateCriteria] once [insert] has run on it. *)
Definition spec_of (r : result) (updateCriteria : option doc) : option doc :=
  match r with
  | RData (One d) => Some d
  | _ => updateCriteria
  end.

(** What the callback of [get] in [update] goes on to do: hand the
    new array to [set] (whose callback unlocks and settles), leave
    through [return] or a TypeError with the lock still taken, or
    unlock at once because nothing matched. *)
Inductive decision : Type :=
| Persist (documents : list entry) (r : result) (p : promise)
| Leave (p : promise)
| Release (p : promise).

Definition no_keys (criteria : option doc) : bool :=
  match criteria with
  | None | Some [] => true
  | Some _ => false
  end.

(** Lines 257-341, up to the calls of [set], [unlock] and [insert]. *)
Definition afterReadFile (criteria updateCriteria : option doc) (opts : options)
    (documents : list entry) (p : promise) : decision :=
  match scan criteria (spec_entries updateCriteria) (multi opts) documents with
  | Aborted r => Leave (reject r p)
  | Crashed => Leave p
  | Scanned documents' (m :: ms) =>
      let n := length (m :: ms) in
      Persist documents'
        (if retObj opts then RDocs (m :: ms) else RCounts (Counts n n 0)) p
  | Scanned _ [] =>
      if no_keys criteria then
        match update_all (spec_entries updateCriteria) documents p with
        | None => Leave p
        | Some (updatedDocuments, p) =>
            let n := length documents in
            Persist updatedDocuments
              (if retObj opts then RDocs updatedDocuments else RCounts (Counts n n 0)) p
        end
      else Release p
  end.

(** The third component is [updateCriteria] as the caller sees it
    afterwards: the upsert assigns its [_id] in place. *)
Definition update_run (criteria updateCriteria : arg doc) (opts : arg options)
    (w : world) : promise * world * option doc :=
  if is_callback opts || is_callback criteria || is_callback updateCriteria then
    (* [callback = ...]: assignment to an undeclared name in strict mode *)
    (reject ReferenceError None, w, given updateCriteria)
  else
    let opts := match opts with Given o => o | _ => update_defaults end in
    let criteria := given criteria in
    let updateCriteria := given updateCriteria in
    let p := None in
    let p := if criteria is None then reject NoCriteria p else p in
    let p := if updateCriteria is None then reject NoUpdateCriteria p else p in
    match lock w with
    | (Blocked, w) => (p, w, updateCriteria)
    | (outcome, w) =>
        let p :=
          match outcome with
          | Refused e => reject (LockFailed e) p
          | _ => p
          end in
        match get w with
        | (inl e, w) => (reject (ReadFailed e) p, unlock w, updateCriteria)
        | (inr documents, w) =>
            match afterReadFile criteria updateCriteria opts documents p with
            | Persist documents' r p =>
                match set documents' w with
                | (Some e, w) => (reject (WriteFailed e) p, unlock w, updateCriteria)
                | (None, w) => (resolve r p, unlock w, updateCriteria)
                end
            | Leave p => (p, w, updateCriteria)
            | Release p =>
                let w := unlock w in
                if upsert opts then
                  match insert (as_payload updateCriteria) w with
                  | (Some (Resolved r), w) =>
                      let updateCriteria := spec_of r updateCriteria in
                      (resolve (if retObj opts then RSpec updateCriteria
                                else RCounts (Counts 0 0 1)) p,
                       w, updateCriteria)
                  | (Some (Rejected e), w) => (reject e p, w, updateCriteria)
                  | (None, w) => (p, w, updateCriteria)
                  end
                else
                  (resolve (if retObj opts then RSpec updateCriteria
                            else RCounts (Counts 0 0 0)) p,
                   w, updateCriteria)
            end
        end
    end.

Definition update (criteria updateCriteria : arg doc) (opts : arg options)
    (w : world) : promise * world :=
  fst (update_run criteria updateCriteria opts w).

(** *** remove, deleteOne, deleteMany *)

(** [criteria] after the test
    [typeof criteria === 'function' || Object.keys(criteria).length == 0]. *)
Definition normalise (criteria : arg doc) : option doc :=
  match criteria with
  | Given (c :: cs) => Some (c :: cs)
  | _ => None
  end.

(** Lines 380-387: the documents [remove] writes back. *)
Definition remaining (criteria : option doc) (documents : list entry) : list entry :=
  if no_keys criteria then []
  else List.filter (fun document => negb (matchCriteria document criteria)) documents.

(** [options] is never read by [remove]. *)
Definition remove (criteria : arg doc) (opts : arg options) (w : world)
    : promise * world :=
  let criteria := normalise criteria in
  let p := if criteria is None then reject NoCriteria None else None in
  match lock w with
  | (Blocked, w) => (p, w)
  | (outcome, w) =>
      let p :=
        match outcome with
        | Refused e => reject (LockFailed e) p
        | _ => p
        end in
      match get w with
      | (inl e, w) => (reject (ReadFailed e) p, unlock w)
      | (inr documents, w) =>
          match set (remaining criteria documents) w with
          | (Some e, w) => (reject (WriteFailed e) p, unlock w)
          | (None, w) => (resolve RTrue p, unlock w)
          end
      end
  end.

Definition deleteOne (criteria : arg doc) (w : world) : promise * world :=
  remove criteria (Given (Options false false false false)) w.

Definition deleteMany (criteria : arg doc) (w : world) : promise * world :=
  remove criteria (Given (Options true false false false)) w.

(** *** find, findOne, count, distinct *)

(** [async.each] with an iterator that passes the first match to
    [next]: the final callback receives the first truthy document
    handed over, or nothing. *)
Fixpoint first_match (criteria : option doc) (documents : list entry) : option doc :=
  match documents with
  | [] => None
  | Doc d :: rest =>
      if matchCriteria (Doc d) criteria then Some d else first_match criteria rest
  | Null :: rest => first_match criteria rest
  end.

Definition find (criteria : arg doc) (opts : arg options) (w : world)
    : promise * world :=
  let opts := match opts with Given o => o | _ => Options true false false false end in
  let criteria := normalise criteria in
  match get w with
  | (inl e, w) => (reject (ReadFailed e) None, w)
  | (inr documents, w) =>
      match criteria with
      | None => (resolve (RDocs documents) None, w)
      | Some _ =>
          if multi opts then
            (resolve (RDocs (List.filter (fun document => matchCriteria document criteria)
                               documents)) None, w)
          else
            match first_match criteria documents with
            | Some d => (resolve (REntry (Doc d)) None, w)
            | None => (resolve (RDocs []) None, w)
            end
      end
  end.

Definition findOne (criteria : arg doc) (w : world) : promise * world :=
  match normalise criteria with
  | None => (reject NoCriteria None, w)
  | Some _ => find criteria (Given (Options false false false false)) w
  end.

Definition count (criteria : arg doc) (w : world) : promise * world :=
  match normalise criteria with
  | None =>
      match get w with
      | (inl e, w) => (reject (ReadFailed e) None, w)
      | (inr documents, w) => (resolve (RLength (length documents)) None, w)
      end
  | Some _ =>
      match find criteria Missing w with
      | (Some (Resolved (RDocs filteredDocuments)), w) =>
          (resolve (RLength (length filteredDocuments)) None, w)
      | other => other
      end
  end.

(** [document[field]] converts [field] to a property name. *)
Definition field_name (field : option string) : string :=
  match field with
  | Some s => s
  | None => "undefined"
  end.

Definition distinct (field : option string) (w : world) : promise * world :=
  let p :=
    match field with
    | None | Some "" => reject BadField None
    | Some _ => None
    end in
  match get w with
  | (inl e, w) =>
      (* rejected; the chain over [undefined] then yields [[]] *)
      (resolve (RValues []) (reject (ReadFailed e) p), w)
  | (inr documents, w) =>
      match pluck (field_name field) documents with
      | Some values => (resolve (RValues (compact (uniq values))) p, w)
      | None => (p, w)
      end
  end.

(** *** updateOne, updateMany, findAndModify *)

(** [options = options || {}] followed by the two assignments. *)
Definition fix_multi (m : bool) (opts : arg options) : arg options :=
  match opts with
  | Missing => Given (Options m false false false)
  | Given o => Given (Options m (upsert o) (retObj o) (new o))
  | Callback => Callback
  end.

Definition wants_new_state (opts : arg options) (r : result) : bool :=
  match opts, r with
  | Given o, RCounts ret => new o && negb (retObj o) && (0 <? nModified ret)%nat
  | _, _ => false
  end.

Definition updateOne (criteria updateCriteria : arg doc) (opts : arg options)
    (w : world) : promise * world :=
  let opts := fix_multi false opts in
  match update criteria updateCriteria opts w with
  | (Some (Resolved r), w) =>
      if wants_new_state opts r then findOne criteria w
      else (resolve r None, w)
  | other => other
  end.

Definition updateMany (criteria updateCriteria : arg doc) (opts : arg options)
    (w : world) : promise * world :=
  let opts := fix_multi true opts in
  match update criteria updateCriteria opts w with
  | (Some (Resolved r), w) =>
      if wants_new_state opts r then find criteria Missing w
      else (resolve r None, w)
  | other => other
  end.

Definition findAndModify (criteria updateCriteria : arg doc) (opts : arg options)
    (w : world) : promise * world :=
  let opts := match opts with Given o => o | _ => Options true false true false end in
  let criteria := normalise criteria in
  let updateCriteria := given updateCriteria in
  let p := if criteria is None then reject NoCriteria None else None in
  let p := if updateCriteria is None then reject NoUpdateCriteria p else p in
  let as_arg (o : option doc) := match o with Some x => Given x | None => Missing end in
  match update_run (as_arg criteria) (as_arg updateCriteria) (Given opts) w with
  | (Some (Resolved r), w, updateCriteria) =>
      (resolve (if retObj opts then RSpec updateCriteria else r) p, w)
  | (Some (Rejected e), w, _) => (reject e p, w)
  | (None, w, _) => (p, w)
  end.

End Collection.

(** ** A concrete matcher and identifier source, used in the examples *)

(** Every constraint of the criteria is an equality on a primitive
    field value.  Criteria that are [undefined] or have no key match
    nothing: this is the case lines 300-328 of [update] are written for. *)
Definition field_match (document : entry) (criteria : option doc) : bool :=
  match criteria with
  | Some (c :: cs) =>
      forallb (fun kv =>
                 strict_eq (match document with Doc d => get_field d kv.1 | Null => None end)
                   (Some kv.2)) (c :: cs)
  | Some [] | None => false
  end.

Definition numbered_id (n : nat) : string :=
  String.append "id" (String.concat "" (repeat "i" n)).

(** ** The Memory driver *)

Module Memory.
Section Driver.

(** What [read] yields and [set] receives; the [Set] compares its
    elements by identity. *)
Context {content : Type} `{EqDecision content}.

(** Whether the host process goes on after an exception has left a
    callback uncaught.  Node.js terminates the process unless an
    ['uncaughtException'] handler is installed. *)
Variable survives : bool.

Record driver : Type := Driver {
  flush : N;                       (* milliseconds *)
  memoryTable : list content;
  timer : bool;                    (* [setInterval] has been called *)
  fileLocked : bool;
  flushed : list (list content);   (* the tables written, oldest first *)
  uncaught : list string;          (* exceptions thrown out of a callback *)
  running : bool
}.

(** [memoryTable.add(c)] *)
Definition add (c : content) (table : list content) : list content :=
  if decide (c ∈ table) then table else table ++ [c].

(** [throw err] inside a callback. *)
Definition throw (e : string) (d : driver) : driver :=
  Driver (flush d) (memoryTable d) (timer d) (fileLocked d) (flushed d)
    (uncaught d ++ [e]) (running d && survives).

(** [new Memory(options)], given [options.db._flush] and the outcome
    of [util.fileSystem.read]. *)
Definition construct (_flush : option N) (read : string + content) : driver :=
  let d :=
    Driver (match _flush with Some (Npos n) => Npos n | _ => 10000%N end)
      [] false false [] [] true in
  match read with
  | inl err => throw err d
  | inr c =>
      Driver (flush d) (add c (memoryTable d)) true (fileLocked d) (flushed d)
        (uncaught d) (running d)
  end.

(** One firing of [flushToDisk], given the outcomes of
    [util.fileSystem.lock] and [util.fileSystem.write]. *)
Definition flushToDisk (locking : lock_outcome) (writing : option string)
    (d : driver) : driver :=
  if running d && timer d then
    match locking with
    | Blocked => d
    | Refused err => throw err d
    | Granted =>
        match writing with
        | Some err =>
            throw err
              (Driver (flush d) (memoryTable d) (timer d) false (flushed d)
                 (uncaught d) (running d))
        | None =>
            Driver (flush d) (memoryTable d) (timer d) false
              (flushed d ++ [memoryTable d]) (uncaught d) (running d)
        end
    end
  else d.

(** [Memory.prototype.set] *)
Definition set (c : content) (d : driver) : driver :=
  Driver (flush d) (add c (memoryTable d)) (timer d) (fileLocked d) (flushed d)
    (uncaught d) (running d).

(** [Memory.prototype.get] *)
Definition get (d : driver) : list content := memoryTable d.

End Driver.
End Memory.

(** ** Calls in flight on one collection

    JavaScript runs one callback at a time; the calls issued on a
    collection interleave at the callbacks of [lock], [get] and [set].
    The data handler is the fault-free one of the Storage Backend
    contract: the callback of [lock] runs once nobody holds the lock.

    The arguments of a call are values: every call is handed objects of
    its own.  One object handed to two calls is not represented
    ([insert] assigns its [_id] when the call is issued, line 177, and
    pushes the object itself once the documents are read, line 187, so
    a second [insert] of the same object would change what the first
    stores). *)

Section Interleaving.

Variable matchCriteria : entry -> option doc -> bool.
Variable generateUUID : nat -> string.

(** A call once its executor has run up to [lock]: arguments
    normalised, the identifier of [insert] drawn.  [JInsert] carries
    the value its caller is resolved with. *)
Inductive job : Type :=
| JInsert (data : payload) (r : result)
| JUpdate (criteria updateCriteria : option doc) (opts : options)
| JRemove (criteria : option doc).

Inductive stage : Type :=
| Waiting (j : job) (p : promise)       (* [lock] requested *)
| Reading (j : job) (p : promise)       (* lock taken, [get] requested *)
| Writing (documents : list entry) (r : result) (p : promise)  (* [set] requested *)
| Over (p : promise).                    (* no callback left *)

Record pool : Type := Pool {
  disk : list entry;
  taken : bool;
  drawn : nat;
  tasks : list stage
}.

(** A call with the arguments it is handed, each an object of its
    own. *)
Inductive call : Type :=
| CallInsert (data : arg payload)
| CallUpdate (criteria updateCriteria : arg doc) (opts : arg options)
| CallRemove (criteria : arg doc) (opts : arg options).

(** The synchronous part of a call: the executor up to [lock].  Line
    177 assigns the [_id] on the object [insert] was handed, which is
    this call's own. *)
Definition issue (c : call) (n : nat) : stage * nat :=
  match c with
  | CallInsert (Given data) =>
      let data := stamp data (generateUUID n) in
      (Waiting (JInsert data (RData data)) None, S n)
  | CallInsert _ => (Over (reject NoData None), n)
  | CallUpdate criteria updateCriteria opts =>
      if is_callback opts || is_callback criteria || is_callback updateCriteria then
        (Over (reject ReferenceError None), n)
      else
        let p := if given criteria is None then reject NoCriteria None else None in
        let p := if given updateCriteria is None then reject NoUpdateCriteria p else p in
        (Waiting (JUpdate (given criteria) (given updateCriteria)
                    (match opts with Given o => o | _ => update_defaults end)) p, n)
  | CallRemove criteria _ =>
      let criteria := normalise criteria in
      (Waiting (JRemove criteria)
         (if criteria is None then reject NoCriteria None else None), n)
  end.

Fixpoint issue_all (cs : list call) (n : nat) : list stage * nat :=
  match cs with
  | [] => ([], n)
  | c :: rest =>
      let '(t, n) := issue c n in
      let '(ts, n) := issue_all rest n in
      (t :: ts, n)
  end.

Definition start (cs : list call) (documents : list entry) (n : nat) : pool :=
  let '(ts, n) := issue_all cs n in
  Pool documents false n ts.

(** The callback of [get] of task [i]. *)
Definition after_get (i : nat) (j : job) (p : promise) (s : pool) : pool :=
  match j with
  | JInsert data r =>
      Pool (disk s) (taken s) (drawn s)
        (<[i := Writing (push_data (disk s) data) r p]> (tasks s))
  | JRemove criteria =>
      Pool (disk s) (taken s) (drawn s)
        (<[i := Writing (remaining matchCriteria criteria (disk s)) RTrue p]> (tasks s))
  | JUpdate criteria updateCriteria opts =>
      match afterReadFile matchCriteria criteria updateCriteria opts (disk s) p with
      | Persist documents r p =>
          Pool (disk s) (taken s) (drawn s) (<[i := Writing documents r p]> (tasks s))
      | Leave p =>
          Pool (disk s) (taken s) (drawn s) (<[i := Over p]> (tasks s))
      | Release p =>
          if upsert opts then
            match updateCriteria with
            | Some spec =>
                let d := set_field spec "_id" (VStr (generateUUID (drawn s))) in
                Pool (disk s) false (S (drawn s))
                  (<[i := Waiting
                           (JInsert (One d)
                              (if retObj opts then RSpec (Some d)
                               else RCounts (Counts 0 0 1))) p]> (tasks s))
            | None =>
                Pool (disk s) false (drawn s) (<[i := Over (reject NoData p)]> (tasks s))
            end
          else
            Pool (disk s) false (drawn s)
              (<[i := Over (resolve (if retObj opts then RSpec updateCriteria
                                     else RCounts (Counts 0 0 0)) p)]> (tasks s))
      end
  end.

(** Modelled from the spec: when the callback of [_dataHandler.lock]
    runs (lib/dataHandler.js is missing).  The lock "blocks/suspends
    until no other holder exists". *)
Definition grantable (s : pool) : bool := negb (taken s).

(** The next callback of task [i], when it can run. *)
Definition step (i : nat) (s : pool) : option pool :=
  match tasks s !! i with
  | Some (Waiting j p) =>
      if grantable s
      then Some (Pool (disk s) true (drawn s) (<[i := Reading j p]> (tasks s)))
      else None
  | Some (Reading j p) => Some (after_get i j p s)
  | Some (Writing documents r p) =>
      Some (Pool documents false (drawn s) (<[i := Over (resolve r p)]> (tasks s)))
  | _ => None
  end.

Fixpoint run (schedule : list nat) (s : pool) : option pool :=
  match schedule with
  | [] => Some s
  | i :: rest =>
      match step i s with
      | Some s' => run rest s'
      | None => None
      end
  end.

Definition is_over (t : stage) : bool :=
  match t with
  | Over _ => true
  | _ => false
  end.

(** Every call has run its last callback. *)
Definition complete (s : pool) : bool := forallb is_over (tasks s).

(** One call run alone: its effect on the stored sequence and on the
    identifiers drawn. *)
Definition alone (j : job) (st : list entry * nat) : list entry * nat :=
  match j with
  | JInsert data _ => (push_data st.1 data, st.2)
  | JRemove criteria => (remaining matchCriteria criteria st.1, st.2)
  | JUpdate criteria updateCriteria opts =>
      match afterReadFile matchCriteria criteria updateCriteria opts st.1 None with
      | Persist documents _ _ => (documents, st.2)
      | Leave _ => st
      | Release _ =>
          if upsert opts then
            match updateCriteria with
            | Some spec =>
                ((st.1 ++ [Doc (set_field spec "_id" (VStr (generateUUID st.2)))])%list,
                 S st.2)
            | None => st
            end
          else st
      end
  end.

Definition serial (order : list job) (st : list entry * nat) : list entry * nat :=
  foldl (fun st j => alone j st) st order.

Definition pending (ts : list stage) : list job :=
  omap (fun t => match t with Waiting j _ => Some j | _ => None end) ts.

(** The stored sequence of [s'] is what some serial order of the calls
    pending in [s] leaves. *)
Definition serialisable (s s' : pool) : Prop :=
  exists order, order ≡ₚ pending (tasks s) /\
    disk s' = (serial order (disk s, drawn s)).1.

Definition upserting (c : call) : bool :=
  match c with
  | CallUpdate _ _ (Given o) => upsert o
  | _ => false
  end.

End Interleaving.

(** ** Vocabulary of the properties *)




(** The [_id] of a stored element. *)
Definition id_of (e : entry) : option value :=
  match e with
  | Doc d => get_field d "_id"
  | Null => None
  end.

(** The update family. *)
Inductive family : Type :=
| Update
| UpdateOne
| UpdateMany
| FindAndModify.

Definition run_family (matchCriteria : entry -> option doc -> bool)
    (generateUUID : nat -> string) (f : family)
    (criteria updateCriteria : arg doc) (opts : arg options) (w : world)
    : promise * world :=
  match f with
  | Update => update matchCriteria generateUUID criteria updateCriteria opts w
  | UpdateOne => updateOne matchCriteria generateUUID criteria updateCriteria opts w
  | UpdateMany => updateMany matchCriteria generateUUID criteria updateCriteria opts w
  | FindAndModify => findAndModify matchCriteria generateUUID criteria updateCriteria opts w
  end.

(** Every element of [l] is still at its place in [l'], with the same
    [_id]. *)
Definition keeps_ids (l l' : list entry) : Prop :=
  forall i e, l !! i = Some e -> exists e', l' !! i = Some e' /\ id_of e' = id_of e.

(** Pending or rejected. *)
Definition unresolved (p : promise) : Prop :=
  match p with
  | Some (Resolved _) => False
  | _ => True
  end.

(** The lock is free and no call of the data handler fails. *)
Definition quiet (w : world) : Prop := held w = false /\ faults w = [].

Definition wrote (ev : event) : bool :=
  match ev with
  | EvSet _ _ => true
  | _ => false
  end.

(** *** Calls in flight *)

(** A call run by itself, from its start to its last callback. *)
Definition run_call (matchCriteria : entry -> option doc -> bool)
    (generateUUID : nat -> string) (c : call) (w : world) : promise * world :=
  match c with
  | CallInsert data => insert generateUUID data w
  | CallUpdate criteria updateCriteria opts =>
      update matchCriteria generateUUID criteria updateCriteria opts w
  | CallRemove criteria opts => remove matchCriteria criteria opts w
  end.


(** Inside the locked section: the callback of [get] or of [set] is due. *)
Definition is_busy (t : stage) : bool :=
  match t with
  | Reading _ _ | Writing _ _ _ => true
  | _ => false
  end.

Definition busy (ts : list stage) : list stage := List.filter is_busy ts.

(** The jobs that have not read yet. *)
Definition todo (ts : list stage) : list job :=
  omap (fun t => match t with Waiting j _ | Reading j _ => Some j | _ => None end) ts.

(** A job that never takes the upsert path. *)
Definition plain_job (j : job) : bool :=
  match j with
  | JUpdate _ _ o => negb (upsert o)
  | _ => true
  end.

Definition plain_task (t : stage) : bool :=
  match t with
  | Waiting j _ | Reading j _ => plain_job j
  | _ => true
  end.

Definition fresh_task (t : stage) : bool :=
  match t with
  | Waiting j _ => plain_job j
  | Over _ => true
  | _ => false
  end.

(** The decision of [afterReadFile] without the promise it carries. *)
Definition outline (d : decision) : option (option (list entry * result)) :=
  match d with
  | Persist documents r _ => Some (Some (documents, r))
  | Leave _ => Some None
  | Release _ => None
  end.

(** What holds of every pool reached from the jobs [jobs0] started on
    the stored sequence and identifier count [st0]: the jobs that have
    read, in the order [order] in which they did, account for the stored
    sequence; at most one task is inside the locked section, and what it
    is about to write is what [order] leaves. *)
Definition consistent (matchCriteria : entry -> option doc -> bool)
    (generateUUID : nat -> string)
    (jobs0 : list job) (st0 : list entry * nat) (s : pool) : Prop :=
  exists order,
    order ++ todo (tasks s) ≡ₚ jobs0 /\
    forallb plain_job order = true /\
    forallb plain_task (tasks s) = true /\
    (taken s = false -> busy (tasks s) = []) /\
    let st := serial matchCriteria generateUUID order st0 in
    (busy (tasks s) = [] /\ disk s = st.1 \/
     (exists j p, busy (tasks s) = [Reading j p]) /\ taken s = true /\ disk s = st.1 \/
     (exists r p, busy (tasks s) = [Writing st.1 r p]) /\ taken s = true).

(** Sample data. *)
Definition at_rest (documents : list entry) : world := World documents false [] [] 0.
Definition a1 : doc := [("name", VStr "a"); ("_id", VStr "1")].
Definition a2 : doc := [("name", VStr "a"); ("_id", VStr "2")].
Definition b3 : doc := [("name", VStr "b"); ("_id", VStr "3")].

(** Two identical upserts, used below. *)
Definition upsert_z : call :=
  CallUpdate (Given [("name", VStr "z")]) (Given [("name", VStr "z")])
    (Given (Options false true false false)).

(** *** Further vocabulary *)

(** How many documents a payload holds. *)
Definition payload_size (data : payload) : nat :=
  match data with
  | One _ => 1
  | Many ds => length ds
  end.

(** What [update] makes of one stored element when no entry of the
    update specification is refused. *)
Definition update_each (matchCriteria : entry -> option doc -> bool)
    (criteria : option doc) (spec : doc) (e : entry) : entry :=
  if matchCriteria e criteria then
    match apply_update spec e with
    | Updated e' => e'
    | _ => e
    end
  else e.

(** An entry of the update specification that is a plain value. *)
Definition plain_value (kv : string * value) : bool := negb (instanceof_Object kv.2).

(** The operations that only read. *)
Inductive reader : Type :=
| Find (criteria : arg doc) (opts : arg options)
| FindOne (criteria : arg doc)
| Count (criteria : arg doc)
| Distinct (field : option string).

Definition run_reader (matchCriteria : entry -> option doc -> bool)
    (r : reader) (w : world) : promise * world :=
  match r with
  | Find criteria opts => find matchCriteria criteria opts w
  | FindOne criteria => findOne matchCriteria criteria w
  | Count criteria => count matchCriteria criteria w
  | Distinct field => distinct field w
  end.

(** What [count] makes of the settlement of [find]. *)
Definition length_of (p : promise) : promise :=
  match p with
  | Some (Resolved (RDocs filteredDocuments)) =>
      Some (Resolved (RLength (length filteredDocuments)))
  | other => other
  end.

(** [e[field]] on a stored element that is a document. *)
Definition field_of (field : string) (e : entry) : option value :=
  match e with
  | Doc d => get_field d field
  | Null => None
  end.

(** What happens to a Memory driver after its construction: a call of
    [set], or a firing of the timer with the outcomes of its lock and
    write. *)
Inductive moment (content : Type) : Type :=
| Stored (c : content)
| Fired (locking : lock_outcome) (writing : option string).
Arguments Stored {content} c.
Arguments Fired {content} locking writing.

Definition happen {content : Type} `{EqDecision content} (survives : bool)
    (d : Memory.driver (content:=content)) (m : moment content)
    : Memory.driver (content:=content) :=
  match m with
  | Stored c => Memory.set c d
  | Fired locking writing => Memory.flushToDisk survives locking writing d
  end.

Definition history {content : Type} `{EqDecision content} (survives : bool)
    (ms : list (moment content)) (d : Memory.driver (content:=content))
    : Memory.driver (content:=content) :=
  foldl (happen survives) d ms.

(** At most one call is inside the locked section, and then the lock is
    taken. *)
Definition exclusive (s : pool) : Prop :=
  length (busy (tasks s)) <= 1 /\ (taken s = false -> busy (tasks s) = []).

(** ** The connection ([index.js]) *)

Module Connection.
Section Connect.

(** What a file holds. *)
Context {content : Type}.

(** [path.join] of Node.js. *)
Variable join : string -> string -> string.

(** What a file created by [_ioHandler.writeFile(fullPath, callback)]
    holds. *)
Variable blank : content.

(** The error [_ioHandler.writeFile] meets on a path, if any. *)
Variable failing : string -> option string.

(** The errors handed to the callback; the texts come from
    [lib/resources.json].  [Uncaught] stands for a run in which the
    callback is not called: a TypeError has left the iterator. *)
Inductive failure : Type :=
| InvalidPath (path : string)        (* CONNECTION.INVALID_PATH + path *)
| InvalidCollectionName              (* CONNECTION.INVALID_COLLECTION_NAME *)
| WriteFailure (err : string)        (* the error of writeFile *)
| Uncaught.

(** The paths that exist, with what the files hold. *)
Abbreviation files := (gmap string content).

(** Modelled from the spec: [_ioHandler.pathExists] (lib/ioHandler.js is
    missing): whether the path exists.  Its callback runs once the
    synchronous code that requested it has returned. *)
Definition pathExists (path : string) (fs : files) : bool :=
  bool_decide (is_Some (fs !! path)).

(** Modelled from the spec: [_ioHandler.writeFile] (lib/ioHandler.js is
    missing): the file "is created empty", or an error is handed
    over. *)
Definition writeFile (path : string) (fs : files) : option string * files :=
  match failing path with
  | Some err => (Some err, fs)
  | None => (None, <[path := blank]> fs)
  end.

(** [new JSONDBFS(options)]: [options.path || '/tmp/']. *)
Definition root_of (path : option string) : string :=
  match path with
  | Some "" | None => "/tmp/"
  | Some p => p
  end.

(** The fields the object has when the collections are visited: those
    the constructor assigns (lines 44-46) and [_db] (line 57). *)
Definition own_fields : list string := ["_path"; "_inMemory"; "_ioHandler"; "_db"].

(** Line 74: the file of a collection. *)
Definition file_of (root collection : string) : string :=
  join root (String.append collection ".json").

(** The iterator [create] of [async.each] up to its request of
    [pathExists], lines 74-77.  Line 76 registers the collection on the
    object itself, [self[collection] = new Collection(...)], whatever
    its name: a collection named [_path] replaces the root path, and
    [path.join] raises a TypeError at line 74 of the next iteration
    ([_path_intact] tells whether the field still holds the path); a
    collection named [_ioHandler] replaces the handler, and line 77 of
    the same iteration raises one, [pathExists] being no function of a
    Collection.  The result is the path whose check is requested and
    whether [_path] is intact afterwards, or [None] when a TypeError is
    raised.  The constructor of the Collection only builds its data
    handler (lib/dataHandler.js is missing). *)
Definition create (root : string) (_path_intact : bool) (collection : string)
    : option (string * bool) :=
  if _path_intact then
    let fullPath := file_of root collection in
    if String.eqb collection "_ioHandler" then None
    else Some (fullPath, negb (String.eqb collection "_path"))
  else None.

(** [async.each(collections, create, finalize)]: [create] is called on
    every collection in turn before any callback runs.  An exception
    leaves the loop: the collections after it are not visited and
    [finalize] is not called. *)
Fixpoint each (root : string) (_path_intact : bool) (collections : list string)
    : option (list string) :=
  match collections with
  | [] => Some []
  | collection :: rest =>
      match create root _path_intact collection with
      | Some (fullPath, _path_intact) => cons fullPath <$> each root _path_intact rest
      | None => None
      end
  end.

(** The callback [afterCheck] of lines 77-86 with [afterWriteFile]: the
    file is written if it does not exist.  The first error met is the
    one handed to [finalize]; the other callbacks run all the same. *)
Definition afterCheck (st : files * option string) (fullPath : string)
    : files * option string :=
  if pathExists fullPath st.1 then st
  else
    match writeFile fullPath st.1 with
    | (Some err, fs) => (fs, match st.2 with None => Some err | first => first end)
    | (None, fs) => (fs, st.2)
    end.

(** The callbacks of the check requested for one collection. *)
Definition check (root : string) (st : files * option string) (collection : string)
    : files * option string :=
  afterCheck st (file_of root collection).

(** [connect(collections, callback)]: what the callback receives (an
    error, or the object with its collections registered) and the files
    afterwards.  [collections] is [None] when it is not an array.  When
    the iterator raises, the callback is not called and the files are
    given as they are at that moment: no callback of [pathExists] has
    run yet. *)
Definition connect (path : option string) (collections : option (list string))
    (fs : files) : (failure + list string) * files :=
  let root := root_of path in
  if pathExists root fs then
    match collections with
    | Some names =>
        match each root true names with
        | Some fullPaths =>
            match foldl afterCheck (fs, None) fullPaths with
            | (fs', Some err) => (inl (WriteFailure err), fs')
            | (fs', None) => (inr names, fs')
            end
        | None => (inl Uncaught, fs)
        end
    | None => (inl InvalidCollectionName, fs)
    end
  else (inl (InvalidPath root), fs).

End Connect.
End Connection.

(** ** Examples: the operations at concrete inputs *)

Section Examples.

Example insert_one :
  insert numbered_id (Given (One [("name", VStr "c")])) (at_rest [Doc a1]) =
    (Some (Resolved (RData (One [("name", VStr "c"); ("_id", VStr "id")]))),
     World [Doc a1; Doc [("name", VStr "c"); ("_id", VStr "id")]] false []
       [EvLock true; EvGet true;
        EvSet true [Doc a1; Doc [("name", VStr "c"); ("_id", VStr "id")]];
        EvUnlock] 1).
Proof. reflexivity. Qed.

Example increment :
  update field_match numbered_id (Given []) (Given [("count", VObj [("$inc", VNum 3)])])
    Missing (at_rest [Doc [("count", VNum 5)]]) =
    (Some (Resolved (RCounts (Counts 1 1 0))),
     World [Doc [("count", VNum 8)]] false []
       [EvLock true; EvGet true; EvSet true [Doc [("count", VNum 8)]]; EvUnlock] 0).
Proof. reflexivity. Qed.

Example update_all_leaves_null :
  update field_match numbered_id (Given []) (Given [("count", VObj [("$inc", VNum 1)])])
    Missing (at_rest [Doc [("count", VStr "x")]]) =
    (Some (Rejected NotNumericAll),
     World [Null] false [] [EvLock true; EvGet true; EvSet true [Null]; EvUnlock] 0).
Proof. reflexivity. Qed.

Example read_failure_unlocks :
  update field_match numbered_id (Given [("name", VStr "a")])
    (Given [("name", VStr "b")]) Missing
    (World [Doc a1] false [None; Some "EIO"] [] 0) =
    (Some (Rejected (ReadFailed "EIO")),
     World [Doc a1] false [] [EvLock true; EvGet false; EvUnlock] 0).
Proof. reflexivity. Qed.

Example remove_without_criteria_empties :
  remove field_match Missing Missing (at_rest [Doc a1; Doc b3]) =
    (Some (Rejected NoCriteria),
     World [] false [] [EvLock true; EvGet true; EvSet true []; EvUnlock] 0).
Proof. reflexivity. Qed.

Example find_first :
  findOne field_match (Given [("name", VStr "a")]) (at_rest [Doc b3; Doc a1; Doc a2]) =
    (Some (Resolved (REntry (Doc a1))),
     World [Doc b3; Doc a1; Doc a2] false [] [EvGet true] 0).
Proof. reflexivity. Qed.

Example distinct_tags :
  (distinct (Some "tag")
     (at_rest [Doc [("tag", VStr "a")]; Doc [("tag", VStr "b")];
             Doc [("tag", VStr "a")]; Doc [("tag", VNull)]])).1 =
    Some (Resolved (RValues [VStr "a"; VStr "b"])).
Proof. reflexivity. Qed.

End Examples.


(** ** Release of the lock *)

(** C1, at an input where the code departs from it:
    [update({count: "x"}, {count: {$inc: 1}})] on a collection holding
    [{count: "x"}], with any matcher that accepts this document for these
    criteria.  The lock is granted, the documents are read, the document
    matches, its [count] is not a number: the promise is rejected with
    the type-mismatch message (line 269) and the callback returns (line
    270) without calling [unlock].  Once the operation has settled the
    lock is still held, and nothing has been written. *)
Theorem update_type_mismatch_keeps_lock
    (matchCriteria : entry -> option doc -> bool) (generateUUID : nat -> string) :
  matchCriteria (Doc [("count", VStr "x")]) (Some [("count", VStr "x")]) = true ->
  update matchCriteria generateUUID (Given [("count", VStr "x")])
    (Given [("count", VObj [("$inc", VNum 1)])]) Missing
    (World [Doc [("count", VStr "x")]] false [] [] 0) =
  (Some (Rejected (NotNumeric "count" (Some (VStr "x")) (VNum 1))),
   World [Doc [("count", VStr "x")]] true [] [EvLock true; EvGet true] 0).
Proof.
  intros Hmatch. unfold update, update_run, afterReadFile. simpl.
  rewrite Hmatch. reflexivity.
Qed.

Lemma update_type_mismatch_keeps_lock_witness :
  update field_match numbered_id (Given [("count", VStr "x")])
    (Given [("count", VObj [("$inc", VNum 1)])]) Missing
    (World [Doc [("count", VStr "x")]] false [] [] 0) =
  (Some (Rejected (NotNumeric "count" (Some (VStr "x")) (VNum 1))),
   World [Doc [("count", VStr "x")]] true [] [EvLock true; EvGet true] 0).
Proof.
  apply (update_type_mismatch_keeps_lock field_match numbered_id).
  reflexivity.
Defined.

(** ** Validation of the arguments of [update] *)

(** C2, at an input where the code departs from it: [update] called
    without criteria on a collection holding [{name: "a"}].  Whatever the
    matcher answers, the promise is rejected with 'No criteria
    specified!' and the executor carries on: the lock is taken, the
    documents are read, the document is overwritten and the array is
    written back. *)
Theorem update_without_criteria_still_writes
    (matchCriteria : entry -> option doc -> bool) (generateUUID : nat -> string) :
  update matchCriteria generateUUID Missing (Given [("name", VStr "x")]) Missing
    (World [Doc [("name", VStr "a")]] false [] [] 0) =
  (Some (Rejected NoCriteria),
   World [Doc [("name", VStr "x")]] false []
     [EvLock true; EvGet true; EvSet true [Doc [("name", VStr "x")]]; EvUnlock] 0).
Proof.
  unfold update, update_run, afterReadFile; simpl.
  destruct (matchCriteria (Doc [("name", VStr "a")]) None); reflexivity.
Qed.

(** ** Identifiers *)

(** C4, at an input where the code departs from it: [insert] given an
    array of two documents, on an empty collection.  The identifier is
    assigned to the array object, not to its elements: the insert
    succeeds and both stored documents are without [_id]. *)
Theorem insert_array_stores_documents_without_id (generateUUID : nat -> string) :
  let data := Many [[("name", VStr "a")]; [("name", VStr "b")]] in
  let '(p, w) := insert generateUUID (Given data) (World [] false [] [] 0) in
  p = Some (Resolved (RData data)) /\
  store w = [Doc [("name", VStr "a")]; Doc [("name", VStr "b")]] /\
  forall d, Doc d ∈ store w -> get_field d "_id" = None.
Proof.
  simpl. split; [reflexivity|]. split; [reflexivity|].
  intros d Hd. rewrite !elem_of_cons in Hd.
  destruct Hd as [Hd | [Hd | Hd]].
  - by inversion Hd.
  - by inversion Hd.
  - by apply elem_of_nil in Hd.
Qed.

(** ** Removal *)

(** C7, at an input where the code departs from it:
    [deleteOne({name: "a"})] on a collection with two documents named
    "a" followed by one named "b".  [remove] never reads [options.multi]:
    both matching documents are deleted. *)
Theorem deleteOne_deletes_every_match :
  deleteOne field_match (Given [("name", VStr "a")])
    (World [Doc [("name", VStr "a"); ("_id", VStr "1")];
            Doc [("name", VStr "a"); ("_id", VStr "2")];
            Doc [("name", VStr "b"); ("_id", VStr "3")]] false [] [] 0) =
  (Some (Resolved RTrue),
   World [Doc [("name", VStr "b"); ("_id", VStr "3")]] false []
     [EvLock true; EvGet true;
      EvSet true [Doc [("name", VStr "b"); ("_id", VStr "3")]]; EvUnlock] 0).
Proof. reflexivity. Qed.

(** ** Distinct values *)

(** C8, at an input where the code departs from it: [distinct("tag")]
    on documents whose tags are 0, "a", false, "" and "a" again.
    [_.compact] drops every falsy value: only "a" is returned. *)
Theorem distinct_drops_falsy_values :
  (distinct (Some "tag")
     (World [Doc [("tag", VNum 0)]; Doc [("tag", VStr "a")];
             Doc [("tag", VBool false)]; Doc [("tag", VStr "")];
             Doc [("tag", VStr "a")]] false [] [] 0)).1 =
  Some (Resolved (RValues [VStr "a"])).
Proof. reflexivity. Qed.

(** ** Basic facts *)

Lemma settle_not_pending s p : settle s p <> None.
Proof. by destruct p. Qed.

Lemma reject_not_resolved e p r :
  reject e p = Some (Resolved r) -> p = Some (Resolved r).
Proof. by destruct p. Qed.

Lemma resolve_pending r p r' :
  resolve r p = Some (Resolved r') -> p = None /\ r' = r \/ p = Some (Resolved r').
Proof. destruct p; simpl; intros; simplify_eq; auto. Qed.

Lemma get_set_field_ne d k k' v :
  k <> k' -> get_field (set_field d k v) k' = get_field d k'.
Proof.
  intros Hne. induction d as [|[k0 v0] d IH]; simpl.
  - destruct (String.eqb_spec k k'); congruence.
  - destruct (String.eqb_spec k0 k) as [->|Hk]; simpl.
    + destruct (String.eqb_spec k k'); congruence.
    + destruct (String.eqb_spec k0 k'); auto.
Qed.

Lemma get_set_field_eq d k v : get_field (set_field d k v) k = Some v.
Proof.
  induction d as [|[k0 v0] d IH]; simpl.
  - by rewrite String.eqb_refl.
  - destruct (String.eqb_spec k0 k) as [->|Hk]; simpl.
    + by rewrite String.eqb_refl.
    + destruct (String.eqb_spec k0 k); congruence.
Qed.

Lemma lock_quiet w :
  quiet w ->
  lock w = (Granted, World (store w) true [] (journal w ++ [EvLock true]) (issued w)).
Proof. destruct w; intros [Hh Hf]; simpl in *; by subst. Qed.

Lemma unresolved_reject e p : unresolved p -> unresolved (reject e p).
Proof. by destruct p as [[]|]. Qed.

Lemma unresolved_resolve r p r' :
  unresolved p -> resolve r p = Some (Resolved r') -> p = None /\ r' = r.
Proof. destruct p as [[]|]; simpl; intros; by simplify_eq. Qed.

Lemma unresolved_not p r : unresolved p -> p <> Some (Resolved r).
Proof. by destruct p as [[]|]. Qed.

Lemma lock_store w : store (lock w).2 = store w.
Proof.
  unfold lock, next_fault. destruct (held w); [done|].
  by destruct (faults w) as [|[]].
Qed.

Lemma get_store w : store (get w).2 = store w.
Proof. unfold get, next_fault. by destruct (faults w) as [|[]]. Qed.

Lemma get_documents w documents : (get w).1 = inr documents -> documents = store w.
Proof.
  unfold get, next_fault. destruct (faults w) as [|[]]; simpl; congruence.
Qed.

Lemma set_store documents w :
  store (set documents w).2 =
    match (set documents w).1 with None => documents | Some _ => store w end.
Proof. unfold set, next_fault. by destruct (faults w) as [|[]]. Qed.

Lemma unlock_store w : store (unlock w) = store w.
Proof. done. Qed.


Lemma keeps_ids_refl l : keeps_ids l l.
Proof. intros i e He. eauto. Qed.

Lemma keeps_ids_app l l' : keeps_ids l (l ++ l').
Proof. intros i e He. exists e. split; [|done]. by apply lookup_app_l_Some. Qed.

Lemma keeps_ids_trans l1 l2 l3 : keeps_ids l1 l2 -> keeps_ids l2 l3 -> keeps_ids l1 l3.
Proof.
  intros H12 H23 i e He.
  destruct (H12 i e He) as (e2 & He2 & Hid2).
  destruct (H23 i e2 He2) as (e3 & He3 & Hid3).
  exists e3. split; [done|congruence].
Qed.

Lemma keeps_ids_Forall2 l l' :
  Forall2 (fun e e' => id_of e' = id_of e) l l' -> keeps_ids l l'.
Proof.
  intros HF i e He.
  destruct (Forall2_lookup_l _ _ _ _ _ HF He) as (e' & He' & Hid). eauto.
Qed.

Lemma apply_update_id spec e e' :
  "_id" ∉ spec.*1 -> apply_update spec e = Updated e' -> id_of e' = id_of e.
Proof.
  revert e. induction spec as [|[k v] spec IH]; intros e Hk Happ; simpl in *.
  - by simplify_eq.
  - apply not_elem_of_cons in Hk as [Hk Hspec].
    destruct (instanceof_Object v).
    + destruct (inc_operand v) as [incValue|]; [|done].
      destruct e as [|d]; [done|].
      destruct (get_field d k) as [[]|] eqn:Hget; try done.
      destruct incValue; try done.
      rewrite (IH _ Hspec Happ). simpl. by apply get_set_field_ne.
    + destruct e as [|d]; [done|].
      rewrite (IH _ Hspec Happ). simpl. by apply get_set_field_ne.
Qed.

Lemma apply_update_all_id spec e e' :
  "_id" ∉ spec.*1 -> apply_update_all spec e = Updated e' -> id_of e' = id_of e.
Proof.
  revert e. induction spec as [|[k v] spec IH]; intros e Hk Happ; simpl in *.
  - by simplify_eq.
  - apply not_elem_of_cons in Hk as [Hk Hspec].
    destruct (if instanceof_Object v then inc_operand v else None) as [incValue|].
    + destruct e as [|d]; [done|].
      destruct (get_field d k) as [[]|] eqn:Hget; try done.
      destruct incValue; try done.
      rewrite (IH _ Hspec Happ). simpl. by apply get_set_field_ne.
    + destruct e as [|d]; [done|].
      rewrite (IH _ Hspec Happ). simpl. by apply get_set_field_ne.
Qed.




Section Facts.

Variable matchCriteria : entry -> option doc -> bool.
Variable generateUUID : nat -> string.

Lemma scan_no_match criteria spec m documents :
  Forall (fun e => matchCriteria e criteria = false) documents ->
  scan matchCriteria criteria spec m documents = Scanned documents [].
Proof.
  induction 1 as [|e documents He _ IH]; simpl; [done|].
  by rewrite He, IH.
Qed.

Lemma scan_ids criteria spec m documents documents' matched :
  "_id" ∉ spec.*1 ->
  scan matchCriteria criteria spec m documents = Scanned documents' matched ->
  Forall2 (fun e e' => id_of e' = id_of e) documents documents'.
Proof.
  intros Hk. revert documents' matched.
  induction documents as [|e documents IH]; intros documents' matched Hscan; simpl in *.
  - simplify_eq. constructor.
  - destruct (matchCriteria e criteria).
    + destruct (apply_update spec e) as [e'| |] eqn:Happ; try done.
      apply apply_update_id in Happ; [|done].
      destruct m.
      * destruct (scan matchCriteria criteria spec true documents) as [ds ms| |];
          try done.
        simplify_eq. constructor; eauto.
      * simplify_eq. constructor; [done|]. by apply Forall_Forall2_diag, Forall_true.
    + destruct (scan matchCriteria criteria spec m documents) as [ds ms| |]; try done.
      simplify_eq. constructor; eauto.
Qed.

Lemma update_all_ids spec documents p updated :
  "_id" ∉ spec.*1 ->
  update_all spec documents p = Some (updated, None) ->
  p = None /\ Forall2 (fun e e' => id_of e' = id_of e) documents updated.
Proof.
  intros Hk. revert p updated.
  induction documents as [|e documents IH]; intros p updated Hall; simpl in *.
  - simplify_eq. split; [done|constructor].
  - destruct (apply_update_all spec e) as [e'|r|] eqn:Happ; try done.
    + apply apply_update_all_id in Happ; [|done].
      destruct (update_all spec documents p) as [[ds p']|] eqn:Hrest; try done.
      simplify_eq. destruct (IH _ _ Hrest) as [-> HF]. split; [done|]. by constructor.
    + destruct (update_all spec documents (reject r p)) as [[ds p']|] eqn:Hrest; try done.
      simplify_eq. destruct (IH _ _ Hrest) as [Hp _].
      by apply settle_not_pending in Hp.
Qed.

Lemma update_all_unresolved spec documents p updated p' :
  update_all spec documents p = Some (updated, p') -> unresolved p -> unresolved p'.
Proof.
  revert p updated p'.
  induction documents as [|e documents IH]; intros p updated p' Hall Hp; simpl in *.
  - by simplify_eq.
  - destruct (apply_update_all spec e) as [e'|r|] eqn:Happ; try done.
    + destruct (update_all spec documents p) as [[ds p'']|] eqn:Hrest; try done.
      simplify_eq. eauto.
    + destruct (update_all spec documents (reject r p)) as [[ds p'']|] eqn:Hrest; try done.
      simplify_eq. eapply IH; [done|]. by apply unresolved_reject.
Qed.

Lemma push_data_app documents data : exists l, push_data documents data = documents ++ l.
Proof. destruct data; simpl; eauto. Qed.

Lemma insert_store data w :
  exists l, store (insert generateUUID data w).2 = store w ++ l.
Proof.
  assert (Hnil : exists l, store w = store w ++ l) by (exists []; by rewrite app_nil_r).
  unfold insert. destruct data as [| |data]; simpl; try done.
  pose proof (lock_store (take_id w)) as Hl.
  destruct (lock (take_id w)) as [o w1]; simpl in Hl.
  pose proof (get_store w1) as Hg. pose proof (get_documents w1) as Hd.
  destruct (get w1) as [[e|documents] w2]; simpl in Hg, Hd.
  - destruct o; simpl; rewrite ?Hg, ?Hl; done.
  - rewrite (Hd _ eq_refl) in *.
    pose proof (set_store (push_data (store w1)
                             (stamp data (generateUUID (issued w)))) w2) as Hs.
    destruct (set _ w2) as [[e|] w3]; simpl in Hs;
      destruct o; simpl; rewrite ?Hs, ?Hg, ?Hl; try done;
      apply push_data_app.
Qed.

Lemma update_run_keeps_ids criteria updateCriteria opts w r w' u :
  (forall spec, given updateCriteria = Some spec -> "_id" ∉ spec.*1) ->
  update_run matchCriteria generateUUID criteria updateCriteria opts w =
    (Some (Resolved r), w', u) ->
  keeps_ids (store w) (store w').
Proof.
  intros Hspec. unfold update_run.
  destruct (is_callback opts || is_callback criteria || is_callback updateCriteria);
    [done|].
  set (o := match opts with Given o => o | _ => update_defaults end).
  set (p0 := if given updateCriteria is None then _ else _).
  assert (Hp0 : unresolved p0).
  { subst p0. destruct (given criteria), (given updateCriteria); done. }
  assert (Hid : "_id" ∉ (spec_entries (given updateCriteria)).*1).
  { destruct (given updateCriteria) as [spec|] eqn:Hu; simpl; [eauto|]. apply not_elem_of_nil. }
  clearbody p0.
  pose proof (lock_store w) as Hl.
  destruct (lock w) as [out w1]; simpl in Hl.
  set (p1 := match out with Refused e => reject (LockFailed e) p0 | _ => p0 end).
  assert (Hp1 : unresolved p1).
  { subst p1. destruct out; auto using unresolved_reject. }
  pose proof (get_store w1) as Hg. pose proof (get_documents w1) as Hd.
  assert (Hgoal :
    match get w1 with
    | (inl e, w2) => (reject (ReadFailed e) p1, unlock w2, given updateCriteria)
    | (inr documents, w2) =>
        match afterReadFile matchCriteria (given criteria) (given updateCriteria) o
                documents p1 with
        | Persist documents' r p =>
            match set documents' w2 with
            | (Some e, w3) => (reject (WriteFailed e) p, unlock w3, given updateCriteria)
            | (None, w3) => (resolve r p, unlock w3, given updateCriteria)
            end
        | Leave p => (p, w2, given updateCriteria)
        | Release p =>
            let w3 := unlock w2 in
            if upsert o then
              match insert generateUUID (as_payload (given updateCriteria)) w3 with
              | (Some (Resolved r), w4) =>
                  let uc := spec_of r (given updateCriteria) in
                  (resolve (if retObj o then RSpec uc else RCounts (Counts 0 0 1)) p, w4, uc)
              | (Some (Rejected e), w4) => (reject e p, w4, given updateCriteria)
              | (None, w4) => (p, w4, given updateCriteria)
              end
            else
              (resolve (if retObj o then RSpec (given updateCriteria)
                        else RCounts (Counts 0 0 0)) p, w3, given updateCriteria)
        end
    end = (Some (Resolved r), w', u) -> keeps_ids (store w) (store w')).
  { destruct (get w1) as [[e|documents] w2]; simpl in Hg, Hd.
    { intros [= Hr _ _]. apply reject_not_resolved in Hr. by apply unresolved_not in Hr. }
    specialize (Hd _ eq_refl) as ->.
    unfold afterReadFile.
    destruct (scan matchCriteria (given criteria) (spec_entries (given updateCriteria))
                (multi o) (store w1)) as [documents' [|m ms]|e|] eqn:Hscan.
    - destruct (no_keys (given criteria)).
      + destruct (update_all _ (store w1) p1) as [[updated p2]|] eqn:Hall.
        * pose proof (update_all_unresolved _ _ _ _ _ Hall Hp1) as Hp2.
          pose proof (set_store updated w2) as Hs.
          destruct (set updated w2) as [[e|] w3]; simpl in Hs.
          { intros [= Hr _ _]. apply reject_not_resolved in Hr. by apply unresolved_not in Hr. }
          intros [= Hr <- _]. apply unresolved_resolve in Hr as [-> _]; [|done].
          apply update_all_ids in Hall as [_ HF]; [|done].
          simpl; rewrite Hs, <- Hl. by apply keeps_ids_Forall2.
        * intros [= Hr _ _]. by apply unresolved_not in Hr.
      + cbv zeta. destruct (upsert o).
        * pose proof (insert_store (as_payload (given updateCriteria)) (unlock w2)) as [l Hi].
          destruct (insert _ _ (unlock w2)) as [[[r'|e]|] w4]; simpl in Hi.
          -- intros [= _ <- _]. rewrite Hi; simpl; rewrite Hg, Hl. apply keeps_ids_app.
          -- intros [= Hr _ _]. apply reject_not_resolved in Hr. by apply unresolved_not in Hr.
          -- intros [= Hr _ _]. by apply unresolved_not in Hr.
        * intros [= _ <- _]. simpl; rewrite Hg, Hl. apply keeps_ids_refl.
    - pose proof (set_store documents' w2) as Hs.
      destruct (set documents' w2) as [[e|] w3]; simpl in Hs.
      { intros [= Hr _ _]. apply reject_not_resolved in Hr. by apply unresolved_not in Hr. }
      intros [= _ <- _]. simpl; rewrite Hs, <- Hl.
      apply keeps_ids_Forall2. by eapply scan_ids.
    - intros [= Hr _ _]. apply reject_not_resolved in Hr. by apply unresolved_not in Hr.
    - intros [= Hr _ _]. by apply unresolved_not in Hr. }
  destruct out; [|exact Hgoal|exact Hgoal].
  intros [= Hr _ _]. by apply unresolved_not in Hr.
Qed.


End Facts.

(** ** Updates that match nothing *)

(** C6, as the code has it.  [update] with non-empty criteria that no
    stored document matches, on a free backend whose calls succeed.
    With [upsert] the update specification, given the next identifier
    as its [_id], is appended as one new document; without it the stored
    sequence is unchanged.  The promise is resolved with the counts
    (upserted 1, respectively all 0) when [retObj] is unset, and with the
    update specification itself when [retObj] is set.  The lock is free
    afterwards. *)
Theorem update_without_match
    (matchCriteria : entry -> option doc -> bool) (generateUUID : nat -> string)
    (c : string * value) (cs spec : doc) (opts : arg options) (w : world) :
  quiet w ->
  is_callback opts = false ->
  Forall (fun e => matchCriteria e (Some (c :: cs)) = false) (store w) ->
  let o := match opts with Given o => o | _ => update_defaults end in
  let d := set_field spec "_id" (VStr (generateUUID (issued w))) in
  let '(p, w') :=
    update matchCriteria generateUUID (Given (c :: cs)) (Given spec) opts w in
  held w' = false /\
  store w' = (if upsert o then store w ++ [Doc d] else store w) /\
  p = Some (Resolved
              (if retObj o then RSpec (Some (if upsert o then d else spec))
               else RCounts (Counts 0 0 (if upsert o then 1 else 0)))).
Proof.
  intros Hq Hcb Hnone o d.
  unfold update, update_run. rewrite Hcb; simpl.
  rewrite (lock_quiet w Hq); simpl.
  unfold afterReadFile; simpl.
  rewrite (scan_no_match _ _ _ _ _ Hnone); simpl.
  fold o. destruct (upsert o), (retObj o); simpl; auto.
Qed.

Lemma update_without_match_witness :
  let w := World [Doc [("name", VStr "a"); ("_id", VStr "1")]] false [] [] 0 in
  let '(p, w') :=
    update field_match numbered_id (Given [("name", VStr "z")])
      (Given [("name", VStr "z")]) (Given (Options false true false false)) w in
  held w' = false /\
  store w' = [Doc [("name", VStr "a"); ("_id", VStr "1")];
              Doc [("name", VStr "z"); ("_id", VStr "id")]] /\
  p = Some (Resolved (RCounts (Counts 0 0 1))).
Proof.
  apply (update_without_match field_match numbered_id ("name", VStr "z") []
           [("name", VStr "z")] (Given (Options false true false false))
           (World [Doc [("name", VStr "a"); ("_id", VStr "1")]] false [] [] 0)).
  - split; reflexivity.
  - reflexivity.
  - repeat constructor.
Defined.

(** C6 as stated fails when [retObj] is set: the promise of an upsert
    is then resolved with the update specification, not with a result
    carrying an upserted count. *)
Lemma upsert_with_retObj_resolves_with_spec :
  (update field_match numbered_id (Given [("name", VStr "z")])
     (Given [("name", VStr "z")]) (Given (Options false true true false))
     (World [Doc [("name", VStr "a"); ("_id", VStr "1")]] false [] [] 0)).1 =
    Some (Resolved (RSpec (Some [("name", VStr "z"); ("_id", VStr "id")]))) /\
  forall ret, RSpec (Some [("name", VStr "z"); ("_id", VStr "id")]) <> RCounts ret.
Proof. split; [reflexivity | discriminate]. Qed.

(** ** The identifier under updates *)

Lemma find_store matchCriteria criteria opts w :
  store (find matchCriteria criteria opts w).2 = store w.
Proof.
  unfold find. pose proof (get_store w) as Hg.
  destruct (get w) as [[e|documents] w1]; simpl in Hg; [done|].
  destruct (normalise criteria); [|done].
  destruct (multi _); [done|].
  by destruct (first_match _ _ _).
Qed.

Lemma findOne_store matchCriteria criteria w :
  store (findOne matchCriteria criteria w).2 = store w.
Proof.
  unfold findOne. destruct (normalise criteria); [|done]. apply find_store.
Qed.

(** C9, as the code has it.  A successful [update], [updateOne],
    [updateMany] or [findAndModify] whose update specification has no
    [_id] entry leaves every stored document at its place with the [_id]
    it had, whatever the backend does.  (An [_id] entry is applied like
    any other field.) *)
Theorem update_family_keeps_ids
    (matchCriteria : entry -> option doc -> bool) (generateUUID : nat -> string)
    (f : family) (criteria : arg doc) (spec : doc) (opts : arg options)
    (w w' : world) (r : result) :
  "_id" ∉ spec.*1 ->
  run_family matchCriteria generateUUID f criteria (Given spec) opts w =
    (Some (Resolved r), w') ->
  keeps_ids (store w) (store w').
Proof.
  intros Hid.
  assert (Hrun : forall c o w0 r0 w1 u,
    update_run matchCriteria generateUUID c (Given spec) o w0 =
      (Some (Resolved r0), w1, u) ->
    keeps_ids (store w0) (store w1)).
  { intros c o w0 r0 w1 u. apply update_run_keeps_ids.
    intros spec' [= <-]. exact Hid. }
  destruct f; simpl.
  - unfold update.
    destruct (update_run _ _ criteria (Given spec) opts w) as [[p w1] u] eqn:Hu.
    simpl. intros [= -> ->]. eauto.
  - unfold updateOne, update.
    destruct (update_run _ _ criteria (Given spec) (fix_multi false opts) w)
      as [[[[r1|e]|] w1] u] eqn:Hu; simpl; try done.
    destruct (wants_new_state _ r1).
    + intros Hfind. apply (f_equal snd), (f_equal store) in Hfind. simpl in Hfind.
      rewrite findOne_store in Hfind. rewrite <- Hfind. eauto.
    + intros [= _ <-]. eauto.
  - unfold updateMany, update.
    destruct (update_run _ _ criteria (Given spec) (fix_multi true opts) w)
      as [[[[r1|e]|] w1] u] eqn:Hu; simpl; try done.
    destruct (wants_new_state _ r1).
    + intros Hfind. apply (f_equal snd), (f_equal store) in Hfind. simpl in Hfind.
      rewrite find_store in Hfind. rewrite <- Hfind. eauto.
    + intros [= _ <-]. eauto.
  - unfold findAndModify. simpl.
    destruct (update_run _ _ _ (Given spec) _ w) as [[[[r1|e]|] w1] u] eqn:Hu.
    + intros [= _ <-]. eauto.
    + intros [= Hr _]. apply reject_not_resolved in Hr.
      by destruct (normalise criteria).
    + intros [= Hr _]. by destruct (normalise criteria).
Qed.

Lemma update_family_keeps_ids_witness :
  keeps_ids
    [Doc [("name", VStr "a"); ("_id", VStr "1")];
     Doc [("name", VStr "b"); ("_id", VStr "2")]]
    [Doc [("name", VStr "c"); ("_id", VStr "1")];
     Doc [("name", VStr "b"); ("_id", VStr "2")]].
Proof.
  apply (update_family_keeps_ids field_match numbered_id UpdateOne
           (Given [("name", VStr "a")]) [("name", VStr "c")] Missing
           (World [Doc [("name", VStr "a"); ("_id", VStr "1")];
                   Doc [("name", VStr "b"); ("_id", VStr "2")]] false [] [] 0)
           (World [Doc [("name", VStr "c"); ("_id", VStr "1")];
                   Doc [("name", VStr "b"); ("_id", VStr "2")]] false []
              [EvLock true; EvGet true;
               EvSet true [Doc [("name", VStr "c"); ("_id", VStr "1")];
                           Doc [("name", VStr "b"); ("_id", VStr "2")]];
               EvUnlock] 0)
           (RCounts (Counts 1 1 0))).
  - apply (bool_decide_unpack _). vm_compute. exact I.
  - reflexivity.
Defined.

(** C9 as stated fails for an update specification that names [_id]:
    [update({name: "a"}, {_id: "other"})] succeeds and the matched
    document carries the new identifier. *)
Lemma update_reassigns_id :
  let w := World [Doc [("name", VStr "a"); ("_id", VStr "1")]] false [] [] 0 in
  let '(p, w') :=
    update field_match numbered_id (Given [("name", VStr "a")])
      (Given [("_id", VStr "other")]) Missing w in
  p = Some (Resolved (RCounts (Counts 1 1 0))) /\
  id_of <$> store w !! 0%nat = Some (Some (VStr "1")) /\
  id_of <$> store w' !! 0%nat = Some (Some (VStr "other")).
Proof. repeat split. Qed.

(** ** Operators of the update specification *)




(** ** Calls in flight *)

Section Serialisation.

Variable matchCriteria : entry -> option doc -> bool.
Variable generateUUID : nat -> string.

Lemma update_all_promise spec documents p p' :
  fst <$> update_all spec documents p = fst <$> update_all spec documents p'.
Proof.
  revert p p'. induction documents as [|e documents IH]; intros p p'; simpl; [done|].
  destruct (apply_update_all spec e) as [e'|r|]; [| |done].
  - specialize (IH p p').
    destruct (update_all spec documents p) as [[]|],
             (update_all spec documents p') as [[]|]; simpl in *; by simplify_eq.
  - specialize (IH (reject r p) (reject r p')).
    destruct (update_all spec documents (reject r p)) as [[]|],
             (update_all spec documents (reject r p')) as [[]|]; simpl in *; by simplify_eq.
Qed.

Lemma afterReadFile_promise criteria updateCriteria o documents p p' :
  outline (afterReadFile matchCriteria criteria updateCriteria o documents p) =
  outline (afterReadFile matchCriteria criteria updateCriteria o documents p').
Proof.
  unfold afterReadFile.
  destruct (scan _ _ _ _ _) as [documents' [|m ms]| |]; try done.
  destruct (no_keys criteria); [|done].
  pose proof (update_all_promise (spec_entries updateCriteria) documents p p') as H.
  destruct (update_all _ documents p) as [[]|], (update_all _ documents p') as [[]|];
    simpl in *; by simplify_eq.
Qed.

(** Run by itself on a free backend whose calls succeed, a call leaves
    what [alone] says of its job. *)
Lemma run_call_alone c w j p n :
  quiet w ->
  issue generateUUID c (issued w) = (Waiting j p, n) ->
  let w' := (run_call matchCriteria generateUUID c w).2 in
  (store w', issued w') = alone matchCriteria generateUUID j (store w, n).
Proof.
  destruct w as [documents h f jl k]. intros [Hh Hf]; simpl in *; subst.
  destruct c as [[| |data]|criteria updateCriteria opts|criteria opts]; simpl; try done.
  - intros [= <- <- <-]. done.
  - unfold update, update_run.
    destruct (is_callback opts || is_callback criteria || is_callback updateCriteria);
      [done|].
    intros [= <- <- <-]. simpl.
    set (o := match opts with Given o => o | _ => update_defaults end).
    match goal with |- context [afterReadFile _ ?c ?u ?o ?d ?p] =>
      pose proof (afterReadFile_promise c u o d p None) as Hout end.
    destruct (afterReadFile _ _ _ o documents _) as [d1 r1 p1|p1|p1],
             (afterReadFile _ _ _ o documents None) as [d2 r2 p2|p2|p2];
      simpl in Hout; simplify_eq; simpl; try done.
    destruct (upsert o); [|done].
    destruct (given updateCriteria); done.
  - intros [= <- <- <-]. done.
Qed.
Lemma lookup_split {A} (l : list A) i y :
  l !! i = Some y ->
  exists l1 l2, l = l1 ++ y :: l2 /\ forall x, <[i:=x]> l = l1 ++ x :: l2.
Proof.
  intros Hi. exists (take i l), (drop (S i) l). split.
  - by rewrite take_drop_middle.
  - intros x. apply insert_take_drop. by eapply lookup_lt_Some.
Qed.

Lemma app_cons_singleton {A} (l1 l2 : list A) x y :
  l1 ++ x :: l2 = [y] -> l1 = [] /\ l2 = [] /\ x = y.
Proof.
  destruct l1 as [|a l1]; simpl; intros Heq; simplify_eq; [done|].
  by destruct l1.
Qed.

Lemma busy_app l1 t l2 :
  busy (l1 ++ t :: l2) = busy l1 ++ (if is_busy t then [t] else []) ++ busy l2.
Proof.
  unfold busy. rewrite List.filter_app. simpl. by destruct (is_busy t).
Qed.

Lemma todo_app l1 t l2 :
  todo (l1 ++ t :: l2) =
    todo l1 ++ match t with Waiting j _ | Reading j _ => [j] | _ => [] end ++ todo l2.
Proof. unfold todo. rewrite omap_app. simpl. by destruct t. Qed.

Lemma plain_app l1 t l2 :
  forallb plain_task (l1 ++ t :: l2) =
    forallb plain_task l1 && plain_task t && forallb plain_task l2.
Proof. rewrite forallb_app. simpl. by rewrite andb_assoc. Qed.

Lemma serial_snoc order j st :
  serial matchCriteria generateUUID (order ++ [j]) st =
    alone matchCriteria generateUUID j (serial matchCriteria generateUUID order st).
Proof. unfold serial. by rewrite foldl_app. Qed.

Lemma step_consistent jobs0 st0 i s s' :
  consistent matchCriteria generateUUID jobs0 st0 s ->
  step matchCriteria generateUUID i s = Some s' ->
  consistent matchCriteria generateUUID jobs0 st0 s'.
Proof.
  intros (order & Hperm & Hord & Hplain & Hfree & Hsec) Hstep.
  unfold step in Hstep. destruct (tasks s !! i) as [y|] eqn:Hi; [|done].
  destruct (lookup_split _ _ _ Hi) as (l1 & l2 & Hts & Hins).
  rewrite Hts in Hperm, Hplain, Hfree, Hsec.
  rewrite busy_app in Hfree, Hsec. rewrite todo_app in Hperm. rewrite plain_app in Hplain.
  apply andb_prop in Hplain as [Hplain Hp2]. apply andb_prop in Hplain as [Hp1 Hpy].
  destruct y as [j p|j p|documents r p|p]; [| | |done]; simpl in *.
  - (* the lock is granted *)
    unfold grantable in Hstep. destruct (taken s) eqn:Ht; [done|]. simpl in Hstep.
    simplify_eq.
    pose proof (Hfree eq_refl) as Hb. apply app_eq_nil in Hb as [Hb1 Hb2].
    exists order. simpl. rewrite Hins, busy_app, todo_app, plain_app, Hb1, Hb2, Hp1, Hp2.
    simpl. rewrite Hpy. split_and!; try done.
    rewrite Hb1, Hb2 in Hsec.
    destruct Hsec as [[_ Hd]|[[(j' & p' & ?) _]|[(r' & p' & ?) _]]]; try done.
    right; left. eauto.
  - (* the documents are read *)
    simplify_eq.
    destruct Hsec as [[Hb _]|[[(j' & p' & Hb) [Ht Hd]]|[(r' & p' & Hb) _]]];
      [by destruct (busy l1)| |by apply app_cons_singleton in Hb as (_ & _ & ?)].
    apply app_cons_singleton in Hb as (Hb1 & Hb2 & _).
    exists (order ++ [j]).
    assert (Hperm' : (order ++ [j]) ++ todo l1 ++ todo l2 ≡ₚ jobs0).
    { rewrite <- Hperm. rewrite <- !app_assoc. apply Permutation_app_head.
      simpl. by rewrite Permutation_middle. }
    assert (Hord' : forallb plain_job (order ++ [j]) = true).
    { rewrite forallb_app, Hord. simpl. by rewrite Hpy. }
    rewrite serial_snoc.
    set (st := serial matchCriteria generateUUID order st0) in *.
    unfold after_get. destruct j as [data r|criteria updateCriteria o|criteria]; simpl.
    + rewrite Hins, busy_app, todo_app, plain_app, Hb1, Hb2, Hp1, Hp2, Hd, Ht. simpl.
      split_and!; try done. right; right. eauto.
    + pose proof (afterReadFile_promise criteria updateCriteria o (disk s) p None) as Hout.
      rewrite <- Hd.
      destruct (afterReadFile _ criteria updateCriteria o (disk s) p)
        as [documents r q|q|q],
        (afterReadFile _ criteria updateCriteria o (disk s) None)
        as [documents0 r0 q0|q0|q0]; simpl in Hout; simplify_eq; simpl.
      * rewrite Hins, busy_app, todo_app, plain_app, Hb1, Hb2, Hp1, Hp2, ?Ht. simpl.
        split_and!; try done. right; right. eauto.
      * rewrite Hins, busy_app, todo_app, plain_app, Hb1, Hb2, Hp1, Hp2, ?Ht. simpl.
        split_and!; try done. left. done.
      * simpl in Hpy. destruct (upsert o); [done|]. simpl.
        rewrite Hins, busy_app, todo_app, plain_app, Hb1, Hb2, Hp1, Hp2. simpl.
        split_and!; try done. left. done.
    + rewrite Hins, busy_app, todo_app, plain_app, Hb1, Hb2, Hp1, Hp2, Hd, Ht. simpl.
      split_and!; try done. right; right. eauto.
  - (* the documents are written *)
    simplify_eq.
    destruct Hsec as [[Hb _]|[[(j' & p' & Hb) _]|[(r' & p' & Hb) Ht]]];
      [by destruct (busy l1)|by apply app_cons_singleton in Hb as (_ & _ & ?)|].
    apply app_cons_singleton in Hb as (Hb1 & Hb2 & [= -> _ _]).
    exists order. simpl.
    rewrite Hins, busy_app, todo_app, plain_app, Hb1, Hb2, Hp1, Hp2. simpl.
    split_and!; try done. left. done.
Qed.


Lemma issue_fresh c n : upserting c = false -> fresh_task (issue generateUUID c n).1 = true.
Proof.
  destruct c as [[| |data]|criteria updateCriteria opts|criteria opts]; simpl; try done.
  intros Hup.
  destruct (is_callback opts || is_callback criteria || is_callback updateCriteria);
    simpl; [done|].
  destruct opts; simpl; try done. by rewrite Hup.
Qed.

Lemma issue_all_fresh cs n :
  Forall (fun c => upserting c = false) cs ->
  forallb fresh_task (issue_all generateUUID cs n).1 = true.
Proof.
  intros Hcs. revert n. induction Hcs as [|c cs Hc _ IH]; intros n; simpl; [done|].
  pose proof (issue_fresh c n Hc) as Hf.
  destruct (issue generateUUID c n) as [t n1]. specialize (IH n1).
  destruct (issue_all generateUUID cs n1) as [ts n2]. simpl in *.
  by rewrite Hf, IH.
Qed.

Lemma fresh_tasks ts :
  forallb fresh_task ts = true ->
  todo ts = pending ts /\ busy ts = [] /\ forallb plain_task ts = true.
Proof.
  induction ts as [|t ts IH]; simpl; [done|].
  intros [Ht Hts]%andb_prop. destruct (IH Hts) as (Htodo & Hbusy & Hplain).
  unfold todo, pending, busy in *. destruct t; simpl in *; try done.
  by rewrite Htodo, Ht, Hplain.
Qed.

Lemma start_consistent cs documents n :
  Forall (fun c => upserting c = false) cs ->
  let s := start generateUUID cs documents n in
  consistent matchCriteria generateUUID (pending (tasks s)) (disk s, drawn s) s.
Proof.
  intros Hcs. pose proof (issue_all_fresh cs n Hcs) as Hfresh.
  unfold start. destruct (issue_all generateUUID cs n) as [ts n']. simpl in *.
  destruct (fresh_tasks ts Hfresh) as (Htodo & Hbusy & Hplain).
  exists []. simpl. rewrite Htodo, Hbusy. split_and!; try done. by left.
Qed.

Lemma run_consistent jobs0 st0 schedule s s' :
  consistent matchCriteria generateUUID jobs0 st0 s ->
  run matchCriteria generateUUID schedule s = Some s' ->
  consistent matchCriteria generateUUID jobs0 st0 s'.
Proof.
  revert s. induction schedule as [|i schedule IH]; intros s Hs Hrun; simpl in *.
  - by simplify_eq.
  - destruct (step matchCriteria generateUUID i s) as [s1|] eqn:Hstep; [|done].
    eapply IH; [|done]. by eapply step_consistent.
Qed.

Lemma complete_idle ts :
  forallb is_over ts = true -> todo ts = [] /\ busy ts = [].
Proof.
  induction ts as [|t ts IH]; simpl; [done|].
  intros [Ht Hts]%andb_prop. destruct (IH Hts) as [Htodo Hbusy].
  unfold todo, busy in *. destruct t; simpl in *; try done.
Qed.

(** C5, as the code has it.  Calls of [insert], [remove] and [update]
    issued together on one collection, each handed objects of its own
    (no object is an argument of two of the calls), none of them an
    update with the [upsert] option, on a backend whose lock, read and
    write do not fail: however their callbacks interleave, once every
    call has run its last callback the stored sequence is what the calls
    leave when run one at a time in some order (the order in which they
    read). *)
Theorem calls_without_upsert_serialise
    (cs : list call) (documents : list entry) (n : nat)
    (schedule : list nat) (s' : pool) :
  Forall (fun c => upserting c = false) cs ->
  run matchCriteria generateUUID schedule (start generateUUID cs documents n) = Some s' ->
  complete s' = true ->
  serialisable matchCriteria generateUUID (start generateUUID cs documents n) s'.
Proof.
  intros Hcs Hrun Hdone.
  pose proof (run_consistent _ _ _ _ _ (start_consistent cs documents n Hcs) Hrun)
    as (order & Hperm & _ & _ & _ & Hsec).
  destruct (complete_idle _ Hdone) as [Htodo Hbusy].
  rewrite Htodo, app_nil_r in Hperm. rewrite Hbusy in Hsec.
  exists order. split; [done|].
  destruct Hsec as [[_ Hd]|[[(j & p & ?) _]|[(r & p & ?) _]]]; done.
Qed.


End Serialisation.

Lemma calls_without_upsert_serialise_witness :
  let s := start numbered_id
             [CallInsert (Given (One [("name", VStr "a")]));
              CallRemove (Given [("name", VStr "a")]) Missing] [] 0 in
  serialisable field_match numbered_id s
    (Pool [Doc [("name", VStr "a"); ("_id", VStr "id")]] false 1
       [Over (Some (Resolved (RData (One [("name", VStr "a"); ("_id", VStr "id")]))));
        Over (Some (Resolved RTrue))]).
Proof.
  apply (calls_without_upsert_serialise field_match numbered_id
           [CallInsert (Given (One [("name", VStr "a")]));
            CallRemove (Given [("name", VStr "a")]) Missing] [] 0
           [1; 1; 1; 0; 0; 0]%nat).
  - repeat constructor.
  - reflexivity.
  - reflexivity.
Defined.

(** C5 as stated fails for updates with [upsert]: the lock is released
    between the read that finds no match and the [insert].  Two identical
    upserts on an empty collection can both read before either inserts
    and leave two documents, while run one after the other (in either
    order) they leave one. *)
Lemma concurrent_upserts_not_serialisable :
  let s := start numbered_id [upsert_z; upsert_z] [] 0 in
  exists schedule s',
    run field_match numbered_id schedule s = Some s' /\
    complete s' = true /\
    ~ serialisable field_match numbered_id s s'.
Proof.
  exists [0; 0; 1; 1; 0; 0; 0; 1; 1; 1]%nat. eexists. split; [reflexivity|].
  split; [reflexivity|].
  intros (order & Hperm & Hdisk). simpl in Hperm.
  symmetry in Hperm. apply Permutation_length_2_inv in Hperm.
  destruct Hperm as [-> | ->]; discriminate Hdisk.
Qed.

(** ** The flush timer of the Memory driver *)

Lemma memory_sets_frame {content : Type} `{EqDecision content}
    (cs : list content) (d : Memory.driver (content:=content)) :
  let d' := foldl (fun d c => Memory.set c d) d cs in
  Memory.timer d' = Memory.timer d /\ Memory.running d' = Memory.running d /\
  Memory.flushed d' = Memory.flushed d /\ Memory.uncaught d' = Memory.uncaught d.
Proof.
  revert d. induction cs as [|c cs IH]; intros d; simpl; [done|].
  destruct (IH (Memory.set c d)) as (-> & -> & -> & ->). done.
Qed.

(** C10, as the code has it.  A failed read at startup and a failed
    lock or write on a tick are raised the same way, as an exception
    that leaves the callback uncaught.  At startup nothing is loaded and
    the timer is never started.  On a tick the timer stays installed and
    the table is as it was, nothing having been written; the process is
    still running exactly when the host survives an uncaught exception,
    and in that case the next tick that gets the lock and writes, after
    whatever was set in between, flushes the table as it then is. *)
Theorem flush_failure_is_thrown {content : Type} `{EqDecision content}
    (survives : bool) (d : Memory.driver (content:=content))
    (locking : lock_outcome) (writing : option string) (err : string) :
  Memory.running d = true ->
  Memory.timer d = true ->
  locking = Refused err \/ locking = Granted /\ writing = Some err ->
  (forall _flush,
     let d0 := Memory.construct (content:=content) survives _flush (inl err) in
     Memory.timer d0 = false /\ Memory.memoryTable d0 = [] /\
     Memory.uncaught d0 = [err] /\ Memory.running d0 = survives) /\
  let d1 := Memory.flushToDisk survives locking writing d in
  Memory.timer d1 = true /\
  Memory.memoryTable d1 = Memory.memoryTable d /\
  Memory.flushed d1 = Memory.flushed d /\
  Memory.uncaught d1 = Memory.uncaught d ++ [err] /\
  Memory.running d1 = survives /\
  (survives = true ->
   forall cs,
     let d2 := foldl (fun d c => Memory.set c d) d1 cs in
     Memory.flushed (Memory.flushToDisk survives Granted None d2) =
       Memory.flushed d ++ [Memory.memoryTable d2]).
Proof.
  intros Hrun Htimer Hfail. split; [done|].
  assert (Hd1 :
    Memory.flushToDisk survives locking writing d =
      Memory.Driver (Memory.flush d) (Memory.memoryTable d) true
        (match locking with Granted => false | _ => Memory.fileLocked d end)
        (Memory.flushed d) (Memory.uncaught d ++ [err]) survives).
  { unfold Memory.flushToDisk, Memory.throw. rewrite Hrun, Htimer. simpl.
    destruct Hfail as [-> | [-> ->]]; simpl; by rewrite ?Hrun, ?Htimer. }
  rewrite Hd1. simpl. split_and!; try done.
  intros -> cs.
  match goal with |- context [foldl ?f ?a cs] =>
    pose proof (memory_sets_frame cs a) as (Ht & Hr & Hf & _) end.
  simpl in *. unfold Memory.flushToDisk. rewrite Hr, Ht, Hf. done.
Qed.

Lemma flush_failure_is_thrown_witness :
  let d := Memory.construct true None (inr 1%nat) in
  let d1 := Memory.flushToDisk true Granted (Some "EIO") d in
  Memory.timer d1 = true /\ Memory.running d1 = true /\
  Memory.uncaught d1 = ["EIO"] /\
  Memory.flushed (Memory.flushToDisk true Granted None (Memory.set 2%nat d1)) = [[1; 2]%nat].
Proof.
  pose proof (flush_failure_is_thrown true (Memory.construct true None (inr 1%nat))
                Granted (Some "EIO") "EIO" eq_refl eq_refl (or_intror (conj eq_refl eq_refl)))
    as (_ & Ht & _ & _ & Hu & Hr & Hnext).
  split; [exact Ht|]. split; [exact Hr|]. split; [exact Hu|].
  exact (Hnext eq_refl [2%nat]).
Defined.

(** C10 as stated fails on a host that ends the process on an uncaught
    exception, as Node.js does by default: after a tick on which the
    lock is refused the process is no longer running and the next tick
    flushes nothing. *)
Lemma flush_failure_stops_a_default_host :
  let d := Memory.construct false None (inr 1%nat) in
  let d1 := Memory.flushToDisk false (Refused "EBUSY") None d in
  let d2 := Memory.set 2%nat d1 in
  Memory.timer d = true /\ Memory.running d = true /\
  Memory.running d1 = false /\
  Memory.memoryTable d2 = [1; 2]%nat /\
  Memory.flushed (Memory.flushToDisk false Granted None d2) = [].
Proof. repeat split. Qed.

(** ** More on [insert] and [insertMany] *)

Lemma lock_cases w :
  (lock w).1 = Blocked /\ held w = true /\ (lock w).2 = w \/
  (exists e, (lock w).1 = Refused e) /\ held w = false /\ held (lock w).2 = false \/
  (lock w).1 = Granted /\ held w = false /\ held (lock w).2 = true.
Proof.
  unfold lock, next_fault. destruct (held w); [by left|].
  destruct (faults w) as [|[e|] fs]; simpl; eauto 10.
Qed.

Lemma lock_issued w : issued (lock w).2 = issued w.
Proof.
  unfold lock, next_fault. destruct (held w); [done|].
  by destruct (faults w) as [|[e|] fs].
Qed.

Lemma get_issued w : issued (get w).2 = issued w.
Proof. unfold get, next_fault. by destruct (faults w) as [|[e|] fs]. Qed.

Lemma set_issued documents w : issued (set documents w).2 = issued w.
Proof. unfold set, next_fault. by destruct (faults w) as [|[e|] fs]. Qed.

(** X1.  Whatever the backend does, an [insert] that resolves has stored
    its data, carrying the identifier drawn, after the documents that
    were there, has resolved with that data, and has drawn exactly one
    identifier and released the lock. *)
Theorem insert_resolved (generateUUID : nat -> string) (data : arg payload)
    (w w' : world) (r : result) :
  insert generateUUID data w = (Some (Resolved r), w') ->
  exists d,
    data = Given d /\
    r = RData (stamp d (generateUUID (issued w))) /\
    store w' = push_data (store w) (stamp d (generateUUID (issued w))) /\
    held w' = false /\
    issued w' = S (issued w).
Proof.
  unfold insert. destruct data as [| |d]; [done|done|].
  pose proof (lock_store (take_id w)) as Hl.
  pose proof (lock_issued (take_id w)) as Hli.
  destruct (lock (take_id w)) as [o w1]; simpl in Hl, Hli.
  pose proof (get_store w1) as Hg. pose proof (get_documents w1) as Hd.
  pose proof (get_issued w1) as Hgi.
  destruct (get w1) as [[e|documents] w2]; simpl in Hg, Hd, Hgi.
  { destruct o; done. }
  rewrite (Hd _ eq_refl) in *.
  pose proof (set_store (push_data (store w1) (stamp d (generateUUID (issued w)))) w2)
    as Hs.
  pose proof (set_issued (push_data (store w1) (stamp d (generateUUID (issued w)))) w2)
    as Hsi.
  destruct (set _ w2) as [[e|] w3]; simpl in Hs, Hsi; destruct o; try done.
  intros [= <- <-]. exists d. simpl.
  rewrite Hs, Hl, Hsi, Hgi, Hli. done.
Qed.

Lemma insert_resolved_witness :
  exists d,
    Given (One [("name", VStr "c")]) = Given d /\
    RData (One [("name", VStr "c"); ("_id", VStr "id")]) =
      RData (stamp d (numbered_id 0)) /\
    [Doc a1; Doc [("name", VStr "c"); ("_id", VStr "id")]] =
      push_data [Doc a1] (stamp d (numbered_id 0)) /\
    false = false /\ 1 = 1.
Proof.
  apply (insert_resolved numbered_id (Given (One [("name", VStr "c")]))
           (at_rest [Doc a1])
           (World [Doc a1; Doc [("name", VStr "c"); ("_id", VStr "id")]] false []
              [EvLock true; EvGet true;
               EvSet true [Doc a1; Doc [("name", VStr "c"); ("_id", VStr "id")]];
               EvUnlock] 1)
           (RData (One [("name", VStr "c"); ("_id", VStr "id")]))).
  reflexivity.
Defined.

(** X2.  A refused lock does not stop [insert] or [remove]: the promise
    is rejected with the lock error, and the read and the write go
    ahead all the same. *)
Theorem refused_lock_still_writes (matchCriteria : entry -> option doc -> bool)
    (generateUUID : nat -> string) (data : payload) (c : string * value) (cs : doc)
    (w : world) (e : string) :
  held w = false ->
  faults w = [Some e] ->
  (let '(p, w') := insert generateUUID (Given data) w in
   p = Some (Rejected (LockFailed e)) /\
   store w' = push_data (store w) (stamp data (generateUUID (issued w)))) /\
  (let '(p, w') := remove matchCriteria (Given (c :: cs)) Missing w in
   p = Some (Rejected (LockFailed e)) /\
   store w' = remaining matchCriteria (Some (c :: cs)) (store w)).
Proof.
  destruct w as [documents h f j n]. intros Hh Hf; simpl in *; subst.
  by repeat split.
Qed.

Lemma refused_lock_still_writes_witness :
  (let '(p, w') :=
     insert numbered_id (Given (One [("name", VStr "c")]))
       (World [Doc a1] false [Some "EBUSY"] [] 0) in
   p = Some (Rejected (LockFailed "EBUSY")) /\
   store w' = [Doc a1; Doc [("name", VStr "c"); ("_id", VStr "id")]]) /\
  (let '(p, w') :=
     remove field_match (Given [("name", VStr "a")]) Missing
       (World [Doc a1] false [Some "EBUSY"] [] 0) in
   p = Some (Rejected (LockFailed "EBUSY")) /\ store w' = []).
Proof.
  apply (refused_lock_still_writes field_match numbered_id (One [("name", VStr "c")])
           ("name", VStr "a") [] (World [Doc a1] false [Some "EBUSY"] [] 0) "EBUSY");
    reflexivity.
Defined.

(** X3.  On a free backend whose calls succeed, [count()] after an
    [insert] resolves with the number of documents there were plus the
    number inserted. *)
Theorem count_after_insert (matchCriteria : entry -> option doc -> bool)
    (generateUUID : nat -> string) (data : payload) (w : world) :
  quiet w ->
  (count matchCriteria Missing (insert generateUUID (Given data) w).2).1 =
    Some (Resolved (RLength (length (store w) + payload_size data))).
Proof.
  destruct w as [documents h f j n]. intros [Hh Hf]; simpl in *; subst. simpl.
  destruct data; simpl; by rewrite length_app, ?length_map.
Qed.

Lemma count_after_insert_witness :
  (count field_match Missing
     (insert numbered_id (Given (Many [[("name", VStr "x")]; [("name", VStr "y")]]))
        (at_rest [Doc a1])).2).1 =
    Some (Resolved (RLength 3)).
Proof.
  apply (count_after_insert field_match numbered_id
           (Many [[("name", VStr "x")]; [("name", VStr "y")]]) (at_rest [Doc a1])).
  split; reflexivity.
Defined.

(** X4.  [insertMany] called with something that is not an array, on a
    free backend whose calls succeed: the promise is rejected, the lock
    is taken and the documents are read all the same, and the callback
    then raises on [dataArr.forEach] before [unlock]: nothing is written
    and the lock stays held. *)
Theorem insertMany_without_array_keeps_lock (generateUUID : nat -> string)
    (dataArr : arg (list doc)) (w : world) :
  quiet w ->
  given dataArr = None ->
  let '(p, w') := insertMany generateUUID dataArr w in
  p = Some (Rejected NotAnArray) /\ held w' = true /\ store w' = store w /\
  journal w' = journal w ++ [EvLock true; EvGet true].
Proof.
  destruct w as [documents h f j n]. intros [Hh Hf] Hg; simpl in *; subst.
  destruct dataArr; try done; simpl; by rewrite <- app_assoc.
Qed.

Lemma insertMany_without_array_keeps_lock_witness :
  let '(p, w') := insertMany numbered_id Missing (at_rest [Doc a1]) in
  p = Some (Rejected NotAnArray) /\ held w' = true /\ store w' = [Doc a1] /\
  journal w' = [EvLock true; EvGet true].
Proof.
  apply (insertMany_without_array_keeps_lock numbered_id Missing (at_rest [Doc a1])).
  - split; reflexivity.
  - reflexivity.
Defined.

Lemma stamp_all_lookup generateUUID ds n i d :
  ds !! i = Some d ->
  stamp_all generateUUID ds n !! i =
    Some (set_field d "_id" (VStr (generateUUID (n + i)))).
Proof.
  revert n i. induction ds as [|d0 ds IH]; intros n i; [done|].
  destruct i as [|i]; simpl.
  - intros [= ->]. by rewrite Nat.add_0_r.
  - intros Hi. rewrite (IH (S n) i Hi). by rewrite Nat.add_succ_r.
Qed.

Lemma stamp_all_length generateUUID ds n :
  length (stamp_all generateUUID ds n) = length ds.
Proof. revert n. induction ds as [|d ds IH]; intros n; simpl; [done|]. by rewrite IH. Qed.

Lemma iter_take_id k w :
  Nat.iter k take_id w =
    World (store w) (held w) (faults w) (journal w) (k + issued w).
Proof.
  induction k as [|k IH]; simpl; [by destruct w|]. by rewrite IH.
Qed.

(** X5.  [insertMany] with a non-empty array, on a free backend whose
    calls succeed: one lock, one read, one write, one unlock; the
    elements are appended in their order after the documents that were
    there, the [i]-th carrying the [i]-th identifier drawn; the promise
    is resolved with them. *)
Theorem insertMany_appends_in_one_cycle (generateUUID : nat -> string)
    (d0 : doc) (ds0 : list doc) (w : world) :
  quiet w ->
  let ds := d0 :: ds0 in
  let '(p, w') := insertMany generateUUID (Given ds) w in
  exists stamped,
    p = Some (Resolved (RData (Many stamped))) /\
    store w' = store w ++ map Doc stamped /\
    (forall i d, ds !! i = Some d ->
       stamped !! i = Some (set_field d "_id" (VStr (generateUUID (issued w + i))))) /\
    length stamped = length ds /\
    issued w' = length ds + issued w /\
    held w' = false /\
    journal w' =
      journal w ++ [EvLock true; EvGet true; EvSet true (store w'); EvUnlock].
Proof.
  destruct w as [documents h f j n]. intros [Hh Hf]; simpl in *; subst.
  unfold insertMany. cbn [lock held next_fault faults record_event get store journal issued].
  rewrite iter_take_id. simpl.
  exists (stamp_all generateUUID (d0 :: ds0) n). split_and!; try done.
  - intros i d Hi. by apply stamp_all_lookup.
  - apply stamp_all_length.
  - by rewrite <- !app_assoc.
Qed.

Lemma insertMany_appends_in_one_cycle_witness :
  let '(p, w') :=
    insertMany numbered_id (Given [[("name", VStr "x")]; [("name", VStr "y")]])
      (at_rest [Doc a1]) in
  exists stamped,
    p = Some (Resolved (RData (Many stamped))) /\
    store w' = [Doc a1] ++ map Doc stamped /\
    (forall i d, [[("name", VStr "x")]; [("name", VStr "y")]] !! i = Some d ->
       stamped !! i = Some (set_field d "_id" (VStr (numbered_id (0 + i))))) /\
    length stamped = 2 /\
    issued w' = 2 + 0 /\
    held w' = false /\
    journal w' = [] ++ [EvLock true; EvGet true; EvSet true (store w'); EvUnlock].
Proof.
  apply (insertMany_appends_in_one_cycle numbered_id [("name", VStr "x")]
           [[("name", VStr "y")]] (at_rest [Doc a1])).
  split; reflexivity.
Defined.

(** ** More on [update] *)

Section UpdateFacts.

Variable matchCriteria : entry -> option doc -> bool.
Variable generateUUID : nat -> string.

Lemma scan_first_only criteria spec pre e e' post :
  Forall (fun x => matchCriteria x criteria = false) pre ->
  matchCriteria e criteria = true ->
  apply_update spec e = Updated e' ->
  scan matchCriteria criteria spec false (pre ++ e :: post) =
    Scanned (pre ++ e' :: post) [e'].
Proof.
  intros Hpre He Happ. induction Hpre as [|x pre Hx _ IH]; simpl.
  - by rewrite He, Happ.
  - by rewrite Hx, IH.
Qed.

Lemma scan_length criteria spec m documents documents' matched :
  scan matchCriteria criteria spec m documents = Scanned documents' matched ->
  length documents' = length documents.
Proof.
  revert documents' matched.
  induction documents as [|e documents IH]; intros documents' matched; simpl.
  - by intros [= <- <-].
  - destruct (matchCriteria e criteria).
    + destruct (apply_update spec e) as [e'| |]; try done.
      destruct m.
      * destruct (scan _ criteria spec true documents) as [ds ms| |]; try done.
        intros [= <- <-]. simpl. by rewrite (IH ds ms).
      * by intros [= <- <-].
    + destruct (scan _ criteria spec m documents) as [ds ms| |]; try done.
      intros [= <- <-]. simpl. by rewrite (IH ds ms).
Qed.

Lemma update_all_length spec documents p updated p' :
  update_all spec documents p = Some (updated, p') ->
  length updated = length documents.
Proof.
  revert p updated p'.
  induction documents as [|e documents IH]; intros p updated p'; simpl.
  - by intros [= <- <-].
  - destruct (apply_update_all spec e) as [e'|r|]; try done.
    + destruct (update_all spec documents p) as [[ds q]|] eqn:Hrest; try done.
      intros [= <- <-]. simpl. by rewrite (IH _ _ _ Hrest).
    + destruct (update_all spec documents (reject r p)) as [[ds q]|] eqn:Hrest; try done.
      intros [= <- <-]. simpl. by rewrite (IH _ _ _ Hrest).
Qed.

Lemma insert_length data w :
  length (store w) <= length (store (insert generateUUID data w).2) /\
  (forall d, data = Given (One d) ->
     length (store (insert generateUUID data w).2) <= S (length (store w))) /\
  (given data = None -> store (insert generateUUID data w).2 = store w).
Proof.
  unfold insert. destruct data as [| |data]; simpl; try done.
  pose proof (lock_store (take_id w)) as Hl.
  destruct (lock (take_id w)) as [o w1]; simpl in Hl.
  pose proof (get_store w1) as Hg. pose proof (get_documents w1) as Hd.
  destruct (get w1) as [[e|documents] w2]; simpl in Hg, Hd.
  - destruct o; simpl; rewrite ?Hg, ?Hl; (split; [lia|]); (split; [|done]); intros; lia.
  - rewrite (Hd _ eq_refl) in *.
    pose proof (set_store (push_data (store w1)
                             (stamp data (generateUUID (issued w)))) w2) as Hs.
    destruct (set _ w2) as [[e|] w3]; simpl in Hs;
      destruct o; simpl; rewrite ?Hs, ?Hg, ?Hl;
      (split; [destruct data; simpl; rewrite ?length_app; lia|]);
      (split; [|done]); intros d [= ->]; simpl; rewrite ?length_app; simpl; lia.
Qed.

Lemma apply_update_doc spec d e' :
  apply_update spec (Doc d) = Updated e' -> exists d', e' = Doc d'.
Proof.
  revert d. induction spec as [|[k v] spec IH]; intros d; simpl.
  - intros [= <-]. eauto.
  - destruct (instanceof_Object v).
    + destruct (inc_operand v) as [incValue|]; [|done].
      destruct (get_field d k) as [[]|]; try done.
      destruct incValue; try done. apply IH.
    + apply IH.
Qed.

Lemma scan_docs criteria spec m documents documents' matched :
  scan matchCriteria criteria spec m documents = Scanned documents' matched ->
  forall i d, documents !! i = Some (Doc d) -> exists d', documents' !! i = Some (Doc d').
Proof.
  revert documents' matched.
  induction documents as [|e documents IH]; intros documents' matched Hscan i d Hi;
    simpl in *; [done|].
  destruct (matchCriteria e criteria).
  - destruct (apply_update spec e) as [e'| |] eqn:Happ; try done.
    destruct m.
    + destruct (scan matchCriteria criteria spec true documents) as [ds ms| |] eqn:Hrest;
        try done.
      simplify_eq. destruct i as [|i]; simpl in *.
      * simplify_eq. apply apply_update_doc in Happ as [d' ->]. eauto.
      * eauto.
    + simplify_eq. destruct i as [|i]; simpl in *.
      * simplify_eq. apply apply_update_doc in Happ as [d' ->]. eauto.
      * eauto.
  - destruct (scan matchCriteria criteria spec m documents) as [ds ms| |] eqn:Hrest;
      try done.
    simplify_eq. destruct i as [|i]; simpl in *; eauto.
Qed.

Lemma update_length (criteria updateCriteria : arg doc) (opts : arg options)
    (w : world) :
  let w' := (update matchCriteria generateUUID criteria updateCriteria opts w).2 in
  length (store w) <= length (store w') <= S (length (store w)).
Proof.
  unfold update, update_run.
  destruct (is_callback opts || is_callback criteria || is_callback updateCriteria);
    [simpl; lia|].
  set (o := match opts with Given o => o | _ => update_defaults end).
  set (p0 := if given updateCriteria is None then _ else _). clearbody p0.
  pose proof (lock_store w) as Hl.
  destruct (lock w) as [out w1]; simpl in Hl.
  set (p1 := match out with Refused e => reject (LockFailed e) p0 | _ => p0 end).
  clearbody p1.
  assert (Hgoal :
    let res :=
      match get w1 with
      | (inl e, w2) => (reject (ReadFailed e) p1, unlock w2, given updateCriteria)
      | (inr documents, w2) =>
          match afterReadFile matchCriteria (given criteria) (given updateCriteria) o
                  documents p1 with
          | Persist documents' r p =>
              match set documents' w2 with
              | (Some e, w3) => (reject (WriteFailed e) p, unlock w3, given updateCriteria)
              | (None, w3) => (resolve r p, unlock w3, given updateCriteria)
              end
          | Leave p => (p, w2, given updateCriteria)
          | Release p =>
              let w3 := unlock w2 in
              if upsert o then
                match insert generateUUID (as_payload (given updateCriteria)) w3 with
                | (Some (Resolved r), w4) =>
                    let uc := spec_of r (given updateCriteria) in
                    (resolve (if retObj o then RSpec uc else RCounts (Counts 0 0 1)) p,
                     w4, uc)
                | (Some (Rejected e), w4) => (reject e p, w4, given updateCriteria)
                | (None, w4) => (p, w4, given updateCriteria)
                end
              else
                (resolve (if retObj o then RSpec (given updateCriteria)
                          else RCounts (Counts 0 0 0)) p, w3, given updateCriteria)
          end
      end in
    length (store w) <= length (store res.1.2) <= S (length (store w))).
  { pose proof (get_store w1) as Hg. pose proof (get_documents w1) as Hd.
    destruct (get w1) as [[e|documents] w2]; simpl in Hg, Hd.
    { simpl. rewrite Hg, Hl. lia. }
    specialize (Hd _ eq_refl) as ->.
    unfold afterReadFile.
    destruct (scan matchCriteria (given criteria) (spec_entries (given updateCriteria))
                (multi o) (store w1)) as [documents' [|m ms]|e|] eqn:Hscan.
    - destruct (no_keys (given criteria)).
      + destruct (update_all _ (store w1) p1) as [[updated p2]|] eqn:Hall.
        * apply update_all_length in Hall.
          pose proof (set_store updated w2) as Hs.
          destruct (set updated w2) as [[e|] w3]; simpl in *; rewrite Hs, ?Hg, ?Hall, ?Hl; lia.
        * simpl. rewrite Hg, Hl. lia.
      + cbv zeta. destruct (upsert o).
        * destruct (given updateCriteria) as [spec|].
          -- pose proof (insert_length (Given (One spec)) (unlock w2)) as (Hlo & Hhi & _).
             specialize (Hhi spec eq_refl).
             change (as_payload (Some spec)) with (Given (One spec)).
             change (store (unlock w2)) with (store w2) in Hlo, Hhi.
             rewrite Hg, Hl in Hlo, Hhi.
             by destruct (insert generateUUID (Given (One spec)) (unlock w2))
               as [[[r'|e]|] w4].
          -- simpl. rewrite Hg, Hl. lia.
        * simpl. rewrite Hg, Hl. lia.
    - apply scan_length in Hscan.
      pose proof (set_store documents' w2) as Hs.
      destruct (set documents' w2) as [[e|] w3]; simpl in *; rewrite Hs, ?Hg, ?Hscan, ?Hl; lia.
    - simpl. rewrite Hg, Hl. lia.
    - simpl. rewrite Hg, Hl. lia. }
  destruct out; [simpl; rewrite Hl; lia|exact Hgoal|exact Hgoal].
Qed.


Lemma update_keeps_documents (criteria updateCriteria : arg doc) (opts : arg options)
    (w : world) :
  no_keys (given criteria) = false ->
  forall i d, store w !! i = Some (Doc d) ->
    exists d',
      store (update matchCriteria generateUUID criteria updateCriteria opts w).2 !! i =
        Some (Doc d').
Proof.
  intros Hkeys i d Hi. unfold update, update_run.
  destruct (is_callback opts || is_callback criteria || is_callback updateCriteria);
    [simpl; eauto|].
  set (o := match opts with Given o => o | _ => update_defaults end).
  set (p0 := if given updateCriteria is None then _ else _). clearbody p0.
  pose proof (lock_store w) as Hl.
  destruct (lock w) as [out w1]; simpl in Hl.
  set (p1 := match out with Refused e => reject (LockFailed e) p0 | _ => p0 end).
  clearbody p1.
  assert (Hgoal :
    let res :=
      match get w1 with
      | (inl e, w2) => (reject (ReadFailed e) p1, unlock w2, given updateCriteria)
      | (inr documents, w2) =>
          match afterReadFile matchCriteria (given criteria) (given updateCriteria) o
                  documents p1 with
          | Persist documents' r p =>
              match set documents' w2 with
              | (Some e, w3) => (reject (WriteFailed e) p, unlock w3, given updateCriteria)
              | (None, w3) => (resolve r p, unlock w3, given updateCriteria)
              end
          | Leave p => (p, w2, given updateCriteria)
          | Release p =>
              let w3 := unlock w2 in
              if upsert o then
                match insert generateUUID (as_payload (given updateCriteria)) w3 with
                | (Some (Resolved r), w4) =>
                    let uc := spec_of r (given updateCriteria) in
                    (resolve (if retObj o then RSpec uc else RCounts (Counts 0 0 1)) p,
                     w4, uc)
                | (Some (Rejected e), w4) => (reject e p, w4, given updateCriteria)
                | (None, w4) => (p, w4, given updateCriteria)
                end
              else
                (resolve (if retObj o then RSpec (given updateCriteria)
                          else RCounts (Counts 0 0 0)) p, w3, given updateCriteria)
          end
      end in
    exists d', store res.1.2 !! i = Some (Doc d')).
  { pose proof (get_store w1) as Hg. pose proof (get_documents w1) as Hd.
    destruct (get w1) as [[e|documents] w2]; simpl in Hg, Hd.
    { simpl. rewrite Hg, Hl. eauto. }
    specialize (Hd _ eq_refl) as ->.
    unfold afterReadFile. rewrite Hkeys.
    destruct (scan matchCriteria (given criteria) (spec_entries (given updateCriteria))
                (multi o) (store w1)) as [documents' [|m ms]|e|] eqn:Hscan.
    - cbv zeta. destruct (upsert o).
      + pose proof (insert_store generateUUID (as_payload (given updateCriteria))
                      (unlock w2)) as [l Hins].
        change (store (unlock w2)) with (store w2) in Hins. rewrite Hg, Hl in Hins.
        assert (Hin : store (insert generateUUID (as_payload (given updateCriteria))
                               (unlock w2)).2 !! i = Some (Doc d))
          by (rewrite Hins; by apply lookup_app_l_Some).
        destruct (insert generateUUID (as_payload (given updateCriteria)) (unlock w2))
          as [[[r'|e]|] w4]; simpl in *; eauto.
      + simpl. rewrite Hg, Hl. eauto.
    - rewrite <- Hl in Hi. destruct (scan_docs _ _ _ _ _ _ Hscan i d Hi) as [d' Hd'].
      pose proof (set_store documents' w2) as Hs.
      destruct (set documents' w2) as [[e|] w3]; simpl in *; rewrite Hs, ?Hg; eauto.
    - simpl. rewrite Hg, Hl. eauto.
    - simpl. rewrite Hg, Hl. eauto. }
  destruct out; [simpl; rewrite Hl; eauto|exact Hgoal|exact Hgoal].
Qed.

(** X6.  Whatever its arguments and whatever the backend does, [update]
    never shortens the stored sequence and lengthens it by at most one
    element; and when the criteria have a key, every stored document is
    still a document at its place afterwards.  (With criteria that are
    absent or have no key, lines 303-318 leave [undefined] in the place
    of a document with a refused entry, and it is written back as
    [null].) *)
Theorem update_never_deletes (criteria updateCriteria : arg doc) (opts : arg options)
    (w : world) :
  let w' := (update matchCriteria generateUUID criteria updateCriteria opts w).2 in
  length (store w) <= length (store w') <= S (length (store w)) /\
  (no_keys (given criteria) = false ->
   forall i d, store w !! i = Some (Doc d) ->
     exists d', store w' !! i = Some (Doc d')).
Proof.
  split; [apply update_length | apply update_keeps_documents].
Qed.

(** X7.  [updateOne] on a free backend whose calls succeed changes the
    first stored element that matches and nothing else, also when the
    caller's options ask for [multi] and later elements match too. *)
Theorem updateOne_changes_first_match_only (c : string * value) (cs spec : doc)
    (opts : arg options) (w : world) (pre post : list entry) (e e' : entry) :
  quiet w ->
  is_callback opts = false ->
  store w = pre ++ e :: post ->
  Forall (fun x => matchCriteria x (Some (c :: cs)) = false) pre ->
  matchCriteria e (Some (c :: cs)) = true ->
  apply_update spec e = Updated e' ->
  let w' := (updateOne matchCriteria generateUUID (Given (c :: cs)) (Given spec)
               opts w).2 in
  store w' = pre ++ e' :: post /\ held w' = false.
Proof.
  destruct w as [documents h f j n]. intros [Hh Hf] Hcb Hst Hpre He Happ.
  simpl in *; subst.
  assert (Hupd : exists r jl,
    update matchCriteria generateUUID (Given (c :: cs)) (Given spec)
      (fix_multi false opts) (World (pre ++ e :: post) false [] j n) =
    (Some (Resolved r), World (pre ++ e' :: post) false [] jl n)).
  { unfold update, update_run.
    assert (is_callback (fix_multi false opts) = false) as -> by by destruct opts.
    simpl. unfold afterReadFile.
    assert (multi match fix_multi false opts with
                  | Given o => o | _ => update_defaults end = false) as ->
      by by destruct opts.
    rewrite (scan_first_only _ _ _ _ _ _ Hpre He Happ). simpl. eauto. }
  destruct Hupd as (r & jl & Hupd). unfold updateOne. rewrite Hupd.
  destruct (wants_new_state _ r); [|done].
  pose proof (findOne_store matchCriteria (Given (c :: cs))
                (World (pre ++ e' :: post) false [] jl n)) as Hs.
  unfold findOne, find in *. simpl in *. destruct (first_match _ _ _); done.
Qed.

Lemma scan_multi criteria spec documents :
  Forall (fun e => matchCriteria e criteria = true ->
                   exists e', apply_update spec e = Updated e') documents ->
  scan matchCriteria criteria spec true documents =
    Scanned (map (update_each matchCriteria criteria spec) documents)
      (map (update_each matchCriteria criteria spec)
         (List.filter (fun e => matchCriteria e criteria) documents)).
Proof.
  induction 1 as [|e documents He _ IH]; simpl; [done|].
  rewrite IH. unfold update_each.
  destruct (matchCriteria e criteria) eqn:Hm; simpl; [|done].
  destruct (He eq_refl) as [e' ->]. by rewrite Hm.
Qed.

(** X8.  [update] with its default options, on a free backend whose
    calls succeed, when some stored element matches and no entry of the
    update specification is refused on a matching element: every
    matching element is replaced by its update, every other element is
    left as it is, in place, and the counts resolved are the number of
    matching elements. *)
Theorem update_changes_every_match (criteria spec : doc) (w : world) :
  quiet w ->
  Forall (fun e => matchCriteria e (Some criteria) = true ->
                   exists e', apply_update spec e = Updated e') (store w) ->
  Exists (fun e => matchCriteria e (Some criteria) = true) (store w) ->
  let n := length (List.filter (fun e => matchCriteria e (Some criteria)) (store w)) in
  let '(p, w') :=
    update matchCriteria generateUUID (Given criteria) (Given spec) Missing w in
  p = Some (Resolved (RCounts (Counts n n 0))) /\
  store w' = map (update_each matchCriteria (Some criteria) spec) (store w) /\
  held w' = false.
Proof.
  destruct w as [documents h f j k]. intros [Hh Hf] Hall Hex. simpl in *; subst.
  unfold update, update_run. simpl. unfold afterReadFile. simpl.
  rewrite (scan_multi _ _ _ Hall).
  destruct (List.filter _ documents) as [|m ms] eqn:Hfilter.
  - exfalso. apply Exists_exists in Hex as (e & Hin & He).
    assert (e ∈ List.filter (fun e => matchCriteria e (Some criteria)) documents) as Hin'.
    { apply list_elem_of_In, filter_In. split; [by apply list_elem_of_In|done]. }
    rewrite Hfilter in Hin'. by apply elem_of_nil in Hin'.
  - simpl. by rewrite length_map.
Qed.

End UpdateFacts.

Lemma updateOne_changes_first_match_only_witness :
  let w' := (updateOne field_match numbered_id (Given [("name", VStr "a")])
               (Given [("seen", VBool true)])
               (Given (Options true false false false))
               (at_rest [Doc b3; Doc a1; Doc a2])).2 in
  store w' =
    [Doc b3] ++ Doc [("name", VStr "a"); ("_id", VStr "1"); ("seen", VBool true)]
      :: [Doc a2] /\
  held w' = false.
Proof.
  apply (updateOne_changes_first_match_only field_match numbered_id ("name", VStr "a") [] [("seen", VBool true)]
           (Given (Options true false false false)) (at_rest [Doc b3; Doc a1; Doc a2])
           [Doc b3] [Doc a2] (Doc a1)).
  - split; reflexivity.
  - reflexivity.
  - reflexivity.
  - repeat constructor.
  - reflexivity.
  - reflexivity.
Defined.

Lemma update_changes_every_match_witness :
  let '(p, w') :=
    update field_match numbered_id (Given [("name", VStr "a")])
      (Given [("seen", VBool true)]) Missing (at_rest [Doc a1; Doc b3; Doc a2]) in
  p = Some (Resolved (RCounts (Counts 2 2 0))) /\
  store w' =
    map (update_each field_match (Some [("name", VStr "a")]) [("seen", VBool true)])
      [Doc a1; Doc b3; Doc a2] /\
  held w' = false.
Proof.
  apply (update_changes_every_match field_match numbered_id [("name", VStr "a")] [("seen", VBool true)]
           (at_rest [Doc a1; Doc b3; Doc a2])).
  - split; reflexivity.
  - repeat constructor; intros _; eexists; reflexivity.
  - constructor. reflexivity.
Defined.

(** ** Upsert followed by the same update *)

Lemma set_field_same d k v : get_field d k = Some v -> set_field d k v = d.
Proof.
  induction d as [|[k0 v0] d IH]; simpl; [done|].
  destruct (String.eqb_spec k0 k) as [->|Hk].
  - by intros [= ->].
  - intros Hget. by rewrite IH.
Qed.

Lemma get_field_NoDup (d : doc) k v :
  NoDup d.*1 -> (k, v) ∈ d -> get_field d k = Some v.
Proof.
  induction d as [|[k0 v0] d IH]; simpl; intros Hnd Hin.
  - by apply elem_of_nil in Hin.
  - apply NoDup_cons in Hnd as [Hk0 Hnd].
    apply elem_of_cons in Hin as [[= -> ->]|Hin].
    + by rewrite String.eqb_refl.
    + destruct (String.eqb_spec k0 k) as [->|Hk]; [|by apply IH].
      exfalso. apply Hk0. apply list_elem_of_fmap. by exists (k, v).
Qed.

Lemma set_field_new d k v : k ∉ d.*1 -> set_field d k v = d ++ [(k, v)].
Proof.
  induction d as [|[k0 v0] d IH]; simpl; [done|].
  intros [Hk Hd]%not_elem_of_cons.
  destruct (String.eqb_spec k0 k) as [->|_]; [done|]. by rewrite IH.
Qed.

Lemma apply_update_settled spec d :
  Forall (fun kv => plain_value kv = true /\ get_field d kv.1 = Some kv.2) spec ->
  apply_update spec (Doc d) = Updated (Doc d).
Proof.
  induction 1 as [|[k v] spec [Hplain Hget] _ IH]; simpl; [done|].
  unfold plain_value in Hplain. simpl in *.
  destruct (instanceof_Object v); [done|]. by rewrite set_field_same.
Qed.

Section UpsertFacts.

Variable matchCriteria : entry -> option doc -> bool.
Variable generateUUID : nat -> string.

Lemma scan_last criteria spec m pre e e' :
  Forall (fun x => matchCriteria x criteria = false) pre ->
  matchCriteria e criteria = true ->
  apply_update spec e = Updated e' ->
  scan matchCriteria criteria spec m (pre ++ [e]) = Scanned (pre ++ [e']) [e'].
Proof.
  intros Hpre He Happ. induction Hpre as [|x pre Hx _ IH]; simpl.
  - rewrite He, Happ. by destruct m.
  - by rewrite Hx, IH.
Qed.

(** X9.  An upsert followed by the same call, on a free backend whose
    calls succeed.  When no stored document matches the (non-empty)
    criteria, the specification has plain values, distinct field names
    and no [_id], and the document it becomes matches the criteria: the
    first call appends that document and the second call, given the same
    specification again (as a new literal, or the very object, which now
    carries the [_id]), matches it, leaves the stored sequence as it is
    and resolves with matched 1, modified 1, upserted 0. *)
Theorem upsert_then_update (c : string * value) (cs spec spec2 : doc) (o : options)
    (w : world) :
  quiet w ->
  upsert o = true ->
  retObj o = false ->
  Forall (fun e => matchCriteria e (Some (c :: cs)) = false) (store w) ->
  NoDup spec.*1 ->
  "_id" ∉ spec.*1 ->
  Forall (fun kv => plain_value kv = true) spec ->
  let d := set_field spec "_id" (VStr (generateUUID (issued w))) in
  matchCriteria (Doc d) (Some (c :: cs)) = true ->
  spec2 = spec \/ spec2 = d ->
  let w1 := (update matchCriteria generateUUID (Given (c :: cs)) (Given spec)
               (Given o) w).2 in
  let '(p2, w2) := update matchCriteria generateUUID (Given (c :: cs)) (Given spec2)
                     (Given o) w1 in
  store w1 = store w ++ [Doc d] /\
  store w2 = store w ++ [Doc d] /\
  p2 = Some (Resolved (RCounts (Counts 1 1 0))).
Proof.
  intros Hq Hup Hret Hnone Hnd Hid Hplain d Hd Hspec2.
  pose proof (update_without_match matchCriteria generateUUID c cs spec (Given o) w
                Hq eq_refl Hnone) as H1.
  simpl in H1. rewrite Hup in H1. fold d in H1.
  destruct (update matchCriteria generateUUID (Given (c :: cs)) (Given spec) (Given o) w)
    as [p1 w1] eqn:Hu1.
  destruct H1 as (Hheld1 & Hstore1 & Hp1). simpl.
  assert (Hfaults1 : faults w1 = []).
  { destruct w as [documents h f j n]. destruct Hq as [Hh Hf]; simpl in *; subst.
    unfold update, update_run in Hu1. simpl in Hu1. unfold afterReadFile in Hu1.
    rewrite (scan_no_match _ _ _ _ _ Hnone) in Hu1. simpl in Hu1.
    rewrite Hup in Hu1. simpl in Hu1. by destruct (retObj o); simplify_eq. }
  assert (Hd_keys : d = spec ++ [("_id", VStr (generateUUID (issued w)))]).
  { by apply set_field_new. }
  assert (Hnd_d : NoDup d.*1).
  { rewrite Hd_keys, fmap_app. apply NoDup_app. split; [done|]. simpl.
    split; [|apply NoDup_singleton].
    intros k Hk Hk'. apply list_elem_of_singleton in Hk' as ->. done. }
  assert (Happ : apply_update spec2 (Doc d) = Updated (Doc d)).
  { apply apply_update_settled. destruct Hspec2 as [-> | ->].
    - apply Forall_forall. intros [k v] Hin. split.
      + by apply (proj1 (Forall_forall _ _) Hplain (k, v)).
      + apply get_field_NoDup; [done|]. rewrite Hd_keys. apply elem_of_app. by left.
    - apply Forall_forall. intros [k v] Hin. split.
      + rewrite Hd_keys in Hin. apply elem_of_app in Hin as [Hin|Hin].
        * by apply (proj1 (Forall_forall _ _) Hplain (k, v)).
        * by apply list_elem_of_singleton in Hin as [= -> ->].
      + by apply get_field_NoDup. }
  destruct w1 as [documents1 h1 f1 j1 n1]. simpl in *; subst.
  unfold update, update_run. simpl. unfold afterReadFile. simpl.
  rewrite (scan_last _ _ _ _ _ _ Hnone Hd Happ). simpl.
  by rewrite Hret.
Qed.

(** X10.  [findAndModify] called without options resolves, when it
    resolves, with the update specification it was given, not with the
    documents it changed: its default options set [retObj] and no
    [upsert], and the specification is what [retObj] selects. *)
Theorem findAndModify_resolves_with_its_argument (criteria : arg doc) (spec : doc)
    (w w' : world) (r : result) :
  findAndModify matchCriteria generateUUID criteria (Given spec) Missing w =
    (Some (Resolved r), w') ->
  r = RSpec (Some spec).
Proof.
  unfold findAndModify.
  destruct (normalise criteria) as [c|]; simpl.
  - destruct (update_run _ _ (Given c) (Given spec) _ w) as [[[[r1|e]|] w1] u] eqn:Hu;
      [|done|done].
    intros [= <- _]. f_equal. unfold update_run in Hu. simpl in Hu.
    destruct (lock w) as [[|e|] w2]; [by simplify_eq| |];
      (destruct (get w2) as [[e'|documents] w3]; [by simplify_eq|]);
      (destruct (afterReadFile _ _ _ _ _ _) as [d' r' q|q|q];
       [destruct (set d' w3) as [[e''|] w4]|..]; by simplify_eq).
  - by destruct (update_run _ _ Missing (Given spec) _ w) as [[[[r1|e]|] w1] u].
Qed.

End UpsertFacts.

Lemma upsert_then_update_witness :
  let w := at_rest [Doc a1] in
  let o := Options false true false false in
  let spec := [("name", VStr "z")] in
  let w1 := (update field_match numbered_id (Given [("name", VStr "z")]) (Given spec)
               (Given o) w).2 in
  let '(p2, w2) := update field_match numbered_id (Given [("name", VStr "z")])
                     (Given spec) (Given o) w1 in
  store w1 = [Doc a1] ++ [Doc [("name", VStr "z"); ("_id", VStr "id")]] /\
  store w2 = [Doc a1] ++ [Doc [("name", VStr "z"); ("_id", VStr "id")]] /\
  p2 = Some (Resolved (RCounts (Counts 1 1 0))).
Proof.
  apply (upsert_then_update field_match numbered_id ("name", VStr "z") []
           [("name", VStr "z")] [("name", VStr "z")] (Options false true false false)
           (at_rest [Doc a1])).
  - split; reflexivity.
  - reflexivity.
  - reflexivity.
  - repeat constructor.
  - apply (bool_decide_unpack _). vm_compute. exact I.
  - apply (bool_decide_unpack _). vm_compute. exact I.
  - repeat constructor.
  - reflexivity.
  - left. reflexivity.
Defined.

Lemma findAndModify_resolves_with_its_argument_witness :
  RSpec (Some [("name", VStr "c")]) = RSpec (Some [("name", VStr "c")]).
Proof.
  apply (findAndModify_resolves_with_its_argument field_match numbered_id
           (Given [("name", VStr "a")]) [("name", VStr "c")] (at_rest [Doc a1])
           (World [Doc [("name", VStr "c"); ("_id", VStr "1")]] false []
              [EvLock true; EvGet true;
               EvSet true [Doc [("name", VStr "c"); ("_id", VStr "1")]]; EvUnlock] 0)
           (RSpec (Some [("name", VStr "c")]))).
  reflexivity.
Defined.

(** ** Reading operations *)

Section ReadFacts.

Variable matchCriteria : entry -> option doc -> bool.

Lemma get_frame w :
  let w' := (get w).2 in
  store w' = store w /\ held w' = held w /\ issued w' = issued w /\
  exists ok, journal w' = journal w ++ [EvGet ok].
Proof.
  unfold get, next_fault. destruct (faults w) as [|[e|] fs]; simpl; eauto 10.
Qed.

Lemma find_frame criteria opts w :
  let w' := (find matchCriteria criteria opts w).2 in
  store w' = store w /\ held w' = held w /\ issued w' = issued w /\
  exists ok, journal w' = journal w ++ [EvGet ok].
Proof.
  unfold find. pose proof (get_frame w) as Hg.
  destruct (get w) as [[e|documents] w1]; simpl in Hg; [done|].
  destruct (normalise criteria); [|done].
  destruct (multi _); [done|]. by destruct (first_match _ _ _).
Qed.

(** X11.  [find], [findOne], [count] and [distinct] never take the
    lock, never write and never draw an identifier, whatever the backend
    does: the stored sequence and the state of the lock are as they
    were, and at most one call, a read, reaches the data handler. *)
Theorem readers_only_read (r : reader) (w : world) :
  let w' := (run_reader matchCriteria r w).2 in
  store w' = store w /\ held w' = held w /\ issued w' = issued w /\
  (journal w' = journal w \/ exists ok, journal w' = journal w ++ [EvGet ok]).
Proof.
  destruct r as [criteria opts|criteria|criteria|field]; simpl.
  - destruct (find_frame criteria opts w) as (? & ? & ? & ?). eauto 10.
  - unfold findOne. destruct (normalise criteria); [|by eauto 10].
    destruct (find_frame criteria (Given (Options false false false false)) w)
      as (? & ? & ? & ?). eauto 10.
  - unfold count. destruct (normalise criteria) eqn:Hn.
    + destruct (find_frame criteria Missing w) as (? & ? & ? & ?).
      destruct (find matchCriteria criteria Missing w) as [[[[]|]|] w1]; simpl in *;
        eauto 10.
    + destruct (get_frame w) as (? & ? & ? & ?).
      destruct (get w) as [[e|documents] w1]; simpl in *; eauto 10.
  - unfold distinct. destruct (get_frame w) as (? & ? & ? & ?).
    destruct (get w) as [[e|documents] w1]; simpl in *; [eauto 10|].
    destruct (pluck _ documents); simpl; eauto 10.
Qed.

(** X12.  [count] settles as [find] with the same criteria does, with
    the length of the documents found in place of the documents,
    whatever the backend does. *)
Theorem count_is_length_of_find (criteria : arg doc) (w : world) :
  count matchCriteria criteria w =
    (length_of (find matchCriteria criteria Missing w).1,
     (find matchCriteria criteria Missing w).2).
Proof.
  unfold count, find. destruct (normalise criteria) as [c|] eqn:Hn.
  - simpl. by destruct (get w) as [[e|documents] w1].
  - by destruct (get w) as [[e|documents] w1].
Qed.

Lemma first_match_found criteria pre d post :
  Forall (fun x => matchCriteria x criteria = false) pre ->
  matchCriteria (Doc d) criteria = true ->
  first_match matchCriteria criteria (pre ++ Doc d :: post) = Some d.
Proof.
  intros Hpre Hd. induction Hpre as [|x pre Hx _ IH]; simpl.
  - by rewrite Hd.
  - destruct x as [|d0]; [done|]. by rewrite Hx.
Qed.

Lemma first_match_none criteria documents :
  Forall (fun x => matchCriteria x criteria = false) documents ->
  first_match matchCriteria criteria documents = None.
Proof.
  induction 1 as [|x documents Hx _ IH]; simpl; [done|].
  destruct x as [|d]; [done|]. by rewrite Hx.
Qed.

(** X13.  [findOne] with non-empty criteria, when the read succeeds,
    resolves with the first stored document that matches, whether or not
    the lock is held; when no stored element matches it resolves with an
    empty array, without error. *)
Theorem findOne_first_match_or_empty (c : string * value) (cs : doc) (w : world) :
  faults w = [] ->
  (forall pre d post,
     store w = pre ++ Doc d :: post ->
     Forall (fun x => matchCriteria x (Some (c :: cs)) = false) pre ->
     matchCriteria (Doc d) (Some (c :: cs)) = true ->
     (findOne matchCriteria (Given (c :: cs)) w).1 = Some (Resolved (REntry (Doc d)))) /\
  (Forall (fun x => matchCriteria x (Some (c :: cs)) = false) (store w) ->
   (findOne matchCriteria (Given (c :: cs)) w).1 = Some (Resolved (RDocs []))).
Proof.
  destruct w as [documents h f j n]. simpl. intros ->. split.
  - intros pre d post -> Hpre Hd. unfold findOne, find. simpl.
    by rewrite (first_match_found _ _ _ _ Hpre Hd).
  - intros Hnone. unfold findOne, find. simpl.
    by rewrite (first_match_none _ _ Hnone).
Qed.

Lemma filter_remaining criteria documents :
  List.filter (fun e => matchCriteria e criteria)
    (List.filter (fun e => negb (matchCriteria e criteria)) documents) = [].
Proof.
  induction documents as [|e documents IH]; simpl; [done|].
  destruct (matchCriteria e criteria) eqn:He; simpl; [done|]. by rewrite He.
Qed.

Lemma remaining_remaining criteria documents :
  remaining matchCriteria criteria (remaining matchCriteria criteria documents) =
    remaining matchCriteria criteria documents.
Proof.
  unfold remaining. destruct (no_keys criteria); [done|].
  induction documents as [|e documents IH]; simpl; [done|].
  destruct (matchCriteria e criteria) eqn:He; simpl; [done|]. by rewrite He, IH.
Qed.

(** X14.  [remove] with non-empty criteria, on a free backend whose
    calls succeed, resolves with [true] and leaves the lock free; a
    [find] with the same criteria then resolves with no document, and a
    second [remove] with the same criteria leaves the stored sequence as
    the first left it. *)
Theorem remove_then_find_and_remove (c : string * value) (cs : doc)
    (opts : arg options) (w : world) :
  quiet w ->
  let '(p, w1) := remove matchCriteria (Given (c :: cs)) opts w in
  p = Some (Resolved RTrue) /\ held w1 = false /\
  (find matchCriteria (Given (c :: cs)) Missing w1).1 = Some (Resolved (RDocs [])) /\
  store (remove matchCriteria (Given (c :: cs)) opts w1).2 = store w1.
Proof.
  destruct w as [documents h f j n]. intros [Hh Hf]; simpl in *; subst.
  unfold remove, find. simpl. split_and!; try done.
  - unfold remaining. simpl. by rewrite filter_remaining.
  - apply (remaining_remaining (Some (c :: cs))).
Qed.

(** X15.  [remove] without criteria, or with empty criteria, on a free
    backend whose calls succeed: the promise is rejected with 'No
    criteria specified!' and every stored document is deleted. *)
Theorem remove_without_criteria_deletes_all (criteria : arg doc) (opts : arg options)
    (w : world) :
  quiet w ->
  normalise criteria = None ->
  let '(p, w') := remove matchCriteria criteria opts w in
  p = Some (Rejected NoCriteria) /\ store w' = [] /\ held w' = false /\
  journal w' = journal w ++ [EvLock true; EvGet true; EvSet true []; EvUnlock].
Proof.
  destruct w as [documents h f j n]. intros [Hh Hf] Hn; simpl in *; subst.
  unfold remove. rewrite Hn. simpl. by rewrite <- !app_assoc.
Qed.

End ReadFacts.

Lemma findOne_first_match_or_empty_witness :
  (forall pre d post,
     [Doc b3; Doc a1; Doc a2] = pre ++ Doc d :: post ->
     Forall (fun x => field_match x (Some [("name", VStr "a")]) = false) pre ->
     field_match (Doc d) (Some [("name", VStr "a")]) = true ->
     (findOne field_match (Given [("name", VStr "a")])
        (World [Doc b3; Doc a1; Doc a2] true [] [] 0)).1 =
       Some (Resolved (REntry (Doc d)))) /\
  (Forall (fun x => field_match x (Some [("name", VStr "a")]) = false)
     [Doc b3; Doc a1; Doc a2] ->
   (findOne field_match (Given [("name", VStr "a")])
      (World [Doc b3; Doc a1; Doc a2] true [] [] 0)).1 = Some (Resolved (RDocs []))).
Proof.
  apply (findOne_first_match_or_empty field_match ("name", VStr "a") []
           (World [Doc b3; Doc a1; Doc a2] true [] [] 0)).
  reflexivity.
Defined.

Lemma remove_then_find_and_remove_witness :
  let '(p, w1) := remove field_match (Given [("name", VStr "a")]) Missing
                    (at_rest [Doc a1; Doc b3; Doc a2]) in
  p = Some (Resolved RTrue) /\ held w1 = false /\
  (find field_match (Given [("name", VStr "a")]) Missing w1).1 =
    Some (Resolved (RDocs [])) /\
  store (remove field_match (Given [("name", VStr "a")]) Missing w1).2 = store w1.
Proof.
  apply (remove_then_find_and_remove field_match ("name", VStr "a") [] Missing
           (at_rest [Doc a1; Doc b3; Doc a2])).
  split; reflexivity.
Defined.

Lemma remove_without_criteria_deletes_all_witness :
  let '(p, w') := remove field_match (Given []) Missing (at_rest [Doc a1; Doc b3]) in
  p = Some (Rejected NoCriteria) /\ store w' = [] /\ held w' = false /\
  journal w' = [] ++ [EvLock true; EvGet true; EvSet true []; EvUnlock].
Proof.
  apply (remove_without_criteria_deletes_all field_match (Given []) Missing
           (at_rest [Doc a1; Doc b3])).
  - split; reflexivity.
  - reflexivity.
Defined.

(** ** The values of [distinct] *)

Lemma strict_eq_true a b : strict_eq a b = true -> a = b.
Proof.
  destruct a as [[]|], b as [[]|]; simpl; try done.
  - intros H. by apply Bool.eqb_prop in H as ->.
  - intros H. by apply Z.eqb_eq in H as ->.
  - intros H. by apply String.eqb_eq in H as ->.
Qed.

Lemma uniq_elem (x : option value) vs : x ∈ uniq vs <-> x ∈ vs.
Proof.
  induction vs as [|v vs IH]; simpl; [done|].
  rewrite !elem_of_cons, list_elem_of_In, filter_In, <- list_elem_of_In, IH.
  split.
  - intros [->|[Hin _]]; auto.
  - intros [->|Hin]; [by left|].
    destruct (strict_eq v x) eqn:Heq.
    + left. symmetry. by apply strict_eq_true.
    + by right.
Qed.

Lemma ForallOrdPairs_filter {A} (R : A -> A -> Prop) (f : A -> bool) l :
  ForallOrdPairs R l -> ForallOrdPairs R (List.filter f l).
Proof.
  induction 1 as [|a l Ha _ IH]; simpl; [constructor|].
  destruct (f a); [|done]. constructor; [|done].
  apply List.Forall_forall. intros x [Hx _]%filter_In.
  by apply (proj1 (List.Forall_forall _ _) Ha).
Qed.

Lemma uniq_pairwise vs :
  ForallOrdPairs (fun a b => strict_eq a b = false) (uniq vs).
Proof.
  induction vs as [|v vs IH]; simpl; constructor.
  - apply List.Forall_forall. intros x [_ Hx]%filter_In. by apply negb_true_iff.
  - by apply ForallOrdPairs_filter.
Qed.

Lemma compact_cons x vs :
  compact (Some x :: vs) = if truthy (Some x) then x :: compact vs else compact vs.
Proof. done. Qed.

Lemma compact_elem v vs : v ∈ compact vs <-> Some v ∈ vs /\ truthy (Some v) = true.
Proof.
  induction vs as [|[x|] vs IH].
  - simpl. split; [by intros ?%elem_of_nil | by intros [?%elem_of_nil _]].
  - rewrite compact_cons. destruct (truthy (Some x)) eqn:Hx.
    + rewrite !elem_of_cons, IH. split.
      * intros [->|[? ?]]; auto.
      * intros [[[= ->]|?] ?]; auto.
    + rewrite IH, elem_of_cons. split.
      * intros [? ?]; auto.
      * intros [[[= ->]|?] ?]; [congruence|auto].
  - simpl. rewrite IH, elem_of_cons. split.
    + intros [? ?]; auto.
    + intros [[?|?] ?]; [done|auto].
Qed.

Lemma compact_pairwise vs :
  ForallOrdPairs (fun a b => strict_eq a b = false) vs ->
  ForallOrdPairs (fun a b => strict_eq (Some a) (Some b) = false) (compact vs).
Proof.
  induction 1 as [|a vs Ha _ IH]; [constructor|].
  destruct a as [x|]; [|done]. rewrite compact_cons.
  destruct (truthy (Some x)); [|done]. constructor; [|done].
  apply List.Forall_forall. intros y Hy.
  apply list_elem_of_In, compact_elem in Hy as [Hy _].
  apply (proj1 (List.Forall_forall _ _) Ha). by apply list_elem_of_In.
Qed.

Lemma pluck_documents field documents :
  Forall (fun e => e <> Null) documents ->
  pluck field documents = Some (map (field_of field) documents).
Proof.
  induction 1 as [|e documents He _ IH]; simpl; [done|].
  destruct e as [|d]; [done|]. by rewrite IH.
Qed.

(** X16.  [distinct] with a non-empty field name, when the read
    succeeds and every stored element is a document, resolves with
    values such that: each is truthy and is the value some document
    holds in that field; every truthy value some document holds in the
    field is among them; and no two of them are [===], so that a number,
    string or boolean occurs once. *)
Theorem distinct_values (field : string) (w : world) :
  field <> "" ->
  faults w = [] ->
  Forall (fun e => e <> Null) (store w) ->
  exists vs,
    (distinct (Some field) w).1 = Some (Resolved (RValues vs)) /\
    (forall v, v ∈ vs ->
       truthy (Some v) = true /\
       exists d, Doc d ∈ store w /\ get_field d field = Some v) /\
    (forall d v, Doc d ∈ store w -> get_field d field = Some v ->
       truthy (Some v) = true -> v ∈ vs) /\
    ForallOrdPairs (fun a b => strict_eq (Some a) (Some b) = false) vs.
Proof.
  destruct w as [documents h f j n]. simpl. intros Hfield -> Hdocs.
  unfold distinct. destruct field as [|c field]; [done|]. simpl. rewrite (pluck_documents _ _ Hdocs). simpl.
  eexists. split; [reflexivity|]. split_and!.
  - intros v [Hin Htruthy]%compact_elem. split; [done|].
    apply uniq_elem, list_elem_of_fmap in Hin as ([|d] & Hv & Hd); [done|].
    exists d. split; [done|]. by symmetry.
  - intros d v Hd Hget Htruthy. apply compact_elem. split; [|done].
    apply uniq_elem, list_elem_of_fmap. exists (Doc d). split; [by symmetry|done].
  - apply compact_pairwise, uniq_pairwise.
Qed.

Lemma distinct_values_witness :
  exists vs,
    (distinct (Some "tag")
       (at_rest [Doc [("tag", VStr "a")]; Doc [("tag", VStr "b")];
                 Doc [("tag", VStr "a")]])).1 = Some (Resolved (RValues vs)) /\
    (forall v, v ∈ vs ->
       truthy (Some v) = true /\
       exists d, Doc d ∈ [Doc [("tag", VStr "a")]; Doc [("tag", VStr "b")];
                         Doc [("tag", VStr "a")]] /\
                 get_field d "tag" = Some v) /\
    (forall d v, Doc d ∈ [Doc [("tag", VStr "a")]; Doc [("tag", VStr "b")];
                           Doc [("tag", VStr "a")]] ->
       get_field d "tag" = Some v -> truthy (Some v) = true -> v ∈ vs) /\
    ForallOrdPairs (fun a b => strict_eq (Some a) (Some b) = false) vs.
Proof.
  apply (distinct_values "tag"
           (at_rest [Doc [("tag", VStr "a")]; Doc [("tag", VStr "b")];
                     Doc [("tag", VStr "a")]])).
  - discriminate.
  - reflexivity.
  - repeat constructor; discriminate.
Defined.

(** ** The table of the Memory driver *)

Section MemoryFacts.

Context {content : Type} `{EqDecision content}.
Variable survives : bool.

Lemma add_prefix (c : content) table : table `prefix_of` Memory.add c table.
Proof.
  unfold Memory.add. destruct (decide (c ∈ table)); [done|]. by apply prefix_app_r.
Qed.

Lemma add_NoDup (c : content) table : NoDup table -> NoDup (Memory.add c table).
Proof.
  unfold Memory.add. intros Hnd. destruct (decide (c ∈ table)); [done|].
  apply NoDup_app. split; [done|]. split; [|apply NoDup_singleton].
  intros x Hx Hx'. by apply list_elem_of_singleton in Hx' as ->.
Qed.

Lemma add_elem (c : content) table : c ∈ Memory.add c table.
Proof.
  unfold Memory.add. destruct (decide (c ∈ table)); [done|].
  apply elem_of_app. right. by apply list_elem_of_singleton.
Qed.

(** X17.  [set] of the Memory driver keeps everything the table held, in
    its order, holds what it was given afterwards, and changes nothing
    when given a content the table already holds; it touches nothing
    else of the driver. *)
Theorem memory_set_accumulates (c : content) (d : Memory.driver (content:=content)) :
  Memory.memoryTable d `prefix_of` Memory.get (Memory.set c d) /\
  c ∈ Memory.get (Memory.set c d) /\
  Memory.set c (Memory.set c d) = Memory.set c d /\
  Memory.flushed (Memory.set c d) = Memory.flushed d /\
  Memory.timer (Memory.set c d) = Memory.timer d.
Proof.
  unfold Memory.get, Memory.set. simpl. split_and!; try done.
  - apply add_prefix.
  - apply add_elem.
  - f_equal. unfold Memory.add at 1.
    destruct (decide (c ∈ Memory.add c (Memory.memoryTable d))) as [|Hn]; [done|].
    destruct Hn. apply add_elem.
Qed.

Lemma happen_invariant (d : Memory.driver (content:=content)) (m : moment content) :
  NoDup (Memory.memoryTable d) ->
  Forall (fun t => t `prefix_of` Memory.memoryTable d) (Memory.flushed d) ->
  let d' := happen survives d m in
  NoDup (Memory.memoryTable d') /\
  Forall (fun t => t `prefix_of` Memory.memoryTable d') (Memory.flushed d') /\
  Memory.flushed d `prefix_of` Memory.flushed d'.
Proof.
  intros Hnd Hfl. destruct m as [c|locking writing]; simpl.
  - split_and!; [by apply add_NoDup| |done].
    eapply Forall_impl; [done|]. intros t Ht. simpl in *.
    etrans; [done|]. apply add_prefix.
  - unfold Memory.flushToDisk, Memory.throw.
    destruct (Memory.running d && Memory.timer d); [|done].
    destruct locking; simpl; try done.
    destruct writing; simpl; [done|].
    split_and!; [done| |by apply prefix_app_r].
    apply Forall_app. split; [done|]. by apply Forall_singleton.
Qed.

(** X18.  Whatever is set and whatever the ticks meet after the
    construction of a Memory driver, the table never holds a content
    twice, and every table written to the flush file is an initial
    segment of the table as it is now: no tick flushed anything that was
    later dropped. *)
Theorem memory_flushes_are_prefixes (_flush : option N) (read : string + content)
    (ms : list (moment content)) :
  let d := history survives ms (Memory.construct survives _flush read) in
  NoDup (Memory.memoryTable d) /\
  Forall (fun t => t `prefix_of` Memory.memoryTable d) (Memory.flushed d).
Proof.
  unfold history.
  assert (Hstart :
    NoDup (Memory.memoryTable (Memory.construct survives _flush read)) /\
    Forall (fun t => t `prefix_of`
                       Memory.memoryTable (Memory.construct survives _flush read))
      (Memory.flushed (Memory.construct survives _flush read))).
  { destruct read as [e|c]; simpl; (split; [|by constructor]).
    - apply NoDup_nil_2.
    - apply NoDup_singleton. }
  revert Hstart. generalize (Memory.construct survives _flush read).
  induction ms as [|m ms IH]; intros d [Hnd Hfl]; simpl; [done|].
  apply IH. destruct (happen_invariant d m Hnd Hfl) as (? & ? & _). done.
Qed.

(** X19.  When the read at startup fails, nothing is ever flushed,
    whatever is set and whatever the ticks would meet afterwards: the
    timer was never installed. *)
Theorem memory_never_flushes_after_failed_start (_flush : option N) (err : string)
    (ms : list (moment content)) :
  let d := history survives ms (Memory.construct (content:=content) survives _flush (inl err)) in
  Memory.flushed d = [] /\ Memory.timer d = false.
Proof.
  unfold history.
  assert (Hstart :
    Memory.flushed (Memory.construct (content:=content) survives _flush (inl err)) = [] /\
    Memory.timer (Memory.construct (content:=content) survives _flush (inl err)) = false)
    by (split; reflexivity).
  revert Hstart. generalize (Memory.construct (content:=content) survives _flush (inl err)).
  induction ms as [|m ms IH]; intros d [Hfl Ht]; simpl; [done|].
  apply IH. destruct m as [c|locking writing]; simpl; [by split|].
  unfold Memory.flushToDisk. rewrite Ht, andb_false_r. by split.
Qed.

End MemoryFacts.

(** ** Mutual exclusion and the lock left behind *)

Section ExclusionFacts.

Variable matchCriteria : entry -> option doc -> bool.
Variable generateUUID : nat -> string.

Lemma busy_alone l1 y l2 :
  is_busy y = true ->
  length (busy (l1 ++ y :: l2)) <= 1 ->
  busy l1 = [] /\ busy l2 = [].
Proof.
  intros Hy. rewrite busy_app, Hy, !length_app. simpl.
  destruct (busy l1), (busy l2); simpl; try done; lia.
Qed.

Lemma step_exclusive i s s' :
  exclusive s -> step matchCriteria generateUUID i s = Some s' -> exclusive s'.
Proof.
  intros [Hlen Hfree] Hstep.
  unfold step in Hstep. destruct (tasks s !! i) as [y|] eqn:Hi; [|done].
  destruct (lookup_split _ _ _ Hi) as (l1 & l2 & Hts & Hins).
  rewrite Hts in Hlen, Hfree.
  destruct y as [j p|j p|documents r p|p]; [| | |done].
  - unfold grantable in Hstep. destruct (taken s) eqn:Ht; [done|]. simpl in Hstep.
    simplify_eq. specialize (Hfree eq_refl). rewrite busy_app in Hfree. simpl in Hfree.
    apply app_eq_nil in Hfree as [Hb1 Hb2].
    split; simpl; rewrite Hins, busy_app, Hb1, Hb2; simpl; [lia|done].
  - simplify_eq. destruct (busy_alone l1 (Reading j p) l2 eq_refl Hlen) as [Hb1 Hb2].
    unfold after_get. destruct j as [data r|criteria updateCriteria o|criteria]; simpl.
    + split; simpl; rewrite Hins, busy_app, Hb1, Hb2; simpl; [lia|].
      intros Ht. specialize (Hfree Ht). by rewrite busy_app, Hb1, Hb2 in Hfree.
    + destruct (afterReadFile _ criteria updateCriteria o (disk s) p) as [d r q|q|q].
      * split; simpl; rewrite Hins, busy_app, Hb1, Hb2; simpl; [lia|].
        intros Ht. specialize (Hfree Ht). by rewrite busy_app, Hb1, Hb2 in Hfree.
      * split; simpl; rewrite Hins, busy_app, Hb1, Hb2; simpl; [lia|done].
      * destruct (upsert o); [destruct updateCriteria|];
          (split; simpl; rewrite Hins, busy_app, Hb1, Hb2; simpl; [lia|done]).
    + split; simpl; rewrite Hins, busy_app, Hb1, Hb2; simpl; [lia|].
      intros Ht. specialize (Hfree Ht). by rewrite busy_app, Hb1, Hb2 in Hfree.
  - simplify_eq.
    destruct (busy_alone l1 (Writing documents r p) l2 eq_refl Hlen) as [Hb1 Hb2].
    split; simpl; rewrite Hins, busy_app, Hb1, Hb2; simpl; [lia|done].
Qed.

Lemma issue_all_idle cs n : busy (issue_all generateUUID cs n).1 = [].
Proof.
  revert n. induction cs as [|c cs IH]; intros n; simpl; [done|].
  destruct (issue generateUUID c n) as [t n1] eqn:Hc. specialize (IH n1).
  destruct (issue_all generateUUID cs n1) as [ts n2]. simpl in *.
  unfold busy in *. simpl. rewrite IH.
  destruct c as [[| |data]|criteria updateCriteria opts|criteria opts]; simpl in Hc;
    try (by simplify_eq).
  destruct (is_callback opts || is_callback criteria || is_callback updateCriteria);
    by simplify_eq.
Qed.

(** X20.  However the callbacks of the calls issued together on one
    collection interleave (updates with [upsert] included), on a backend
    whose calls succeed, at most one call at a time is between the
    callback of its [lock] and the callback of its [set], and whenever
    one is the lock is taken. *)
Theorem critical_sections_exclude (cs : list call) (documents : list entry) (n : nat)
    (schedule : list nat) (s' : pool) :
  run matchCriteria generateUUID schedule (start generateUUID cs documents n) = Some s' ->
  length (busy (tasks s')) <= 1 /\ (taken s' = false -> busy (tasks s') = []).
Proof.
  assert (Hstart : exclusive (start generateUUID cs documents n)).
  { unfold start, exclusive. pose proof (issue_all_idle cs n) as Hidle.
    destruct (issue_all generateUUID cs n) as [ts n']. simpl in *.
    rewrite Hidle. simpl. split; [lia|done]. }
  revert Hstart. generalize (start generateUUID cs documents n).
  induction schedule as [|i schedule IH]; intros s Hs Hrun; simpl in *.
  - by simplify_eq.
  - destruct (step matchCriteria generateUUID i s) as [s1|] eqn:Hstep; [|done].
    eapply IH; [|done]. by eapply step_exclusive.
Qed.

Lemma nothing_runs_while_held (s : pool) (schedule : list nat) (s' : pool) :
  taken s = true ->
  busy (tasks s) = [] ->
  run matchCriteria generateUUID schedule s = Some s' ->
  schedule = [] /\ s' = s.
Proof.
  intros Ht Hb Hrun. destruct schedule as [|i schedule]; simpl in Hrun.
  - by simplify_eq.
  - exfalso. unfold step in Hrun.
    destruct (tasks s !! i) as [y|] eqn:Hi; [|done].
    destruct (lookup_split _ _ _ Hi) as (l1 & l2 & Hts & _).
    rewrite Hts, busy_app in Hb.
    destruct y as [j p|j p|documents r p|p]; simpl in *.
    + unfold grantable in Hrun. by rewrite Ht in Hrun.
    + by destruct (busy l1).
    + by destruct (busy l1).
    + done.
Qed.

(** X21.  Calls issued together on one collection, call [i] an
    [update] whose scan of the stored documents meets a refused entry
    (lines 269-270, 275-276).  When the callbacks of its [lock] and of
    its [get] run first, the update is rejected with that failure and
    has no callback left, nothing is written and the lock stays taken;
    from then on no callback of any call on the collection can run:
    every call still waiting for the lock waits for ever. *)
Theorem refused_update_blocks_every_call (cs : list call) (documents : list entry)
    (n i : nat) (criteria updateCriteria : option doc) (o : options) (p : promise)
    (r : reason) :
  tasks (start generateUUID cs documents n) !! i =
    Some (Waiting (JUpdate criteria updateCriteria o) p) ->
  scan matchCriteria criteria (spec_entries updateCriteria) (multi o) documents =
    Aborted r ->
  exists s1,
    run matchCriteria generateUUID [i; i] (start generateUUID cs documents n) = Some s1 /\
    tasks s1 !! i = Some (Over (reject r p)) /\
    disk s1 = documents /\
    taken s1 = true /\
    forall schedule s',
      run matchCriteria generateUUID schedule s1 = Some s' -> schedule = [] /\ s' = s1.
Proof.
  unfold start. pose proof (issue_all_idle cs n) as Hidle.
  destruct (issue_all generateUUID cs n) as [ts n']. simpl in *.
  intros Hi Hscan.
  pose proof (lookup_lt_Some _ _ _ Hi) as Hlt.
  set (l1 := take i ts). set (l2 := drop (S i) ts).
  assert (Hts : ts = l1 ++ Waiting (JUpdate criteria updateCriteria o) p :: l2)
    by (symmetry; by apply take_drop_middle).
  assert (Hins : forall x, <[i:=x]> ts = l1 ++ x :: l2)
    by (intros x; by apply insert_take_drop).
  assert (Hlen : length l1 = i) by (unfold l1; rewrite length_take; lia).
  exists (Pool documents true n' (l1 ++ Over (reject r p) :: l2)).
  split_and!; simpl.
  - unfold step; simpl. rewrite Hi. unfold grantable; simpl.
    unfold step; simpl. rewrite Hins.
    rewrite <- Hlen. rewrite list_lookup_middle by done. simpl.
    unfold afterReadFile. rewrite Hscan. simpl.
    by rewrite insert_app_r_alt, Nat.sub_diag by lia.
  - rewrite <- Hlen. by rewrite list_lookup_middle.
  - done.
  - done.
  - intros schedule s'. apply nothing_runs_while_held; simpl; [done|].
    rewrite Hts, busy_app in Hidle. rewrite busy_app. simpl in *.
    apply app_eq_nil in Hidle as [-> H2]. by simpl in *.
Qed.

End ExclusionFacts.

Lemma critical_sections_exclude_witness :
  let s' := Pool [] true 0
              [Waiting (JUpdate (Some [("name", VStr "z")]) (Some [("name", VStr "z")])
                          (Options false true false false)) None;
               Reading (JUpdate (Some [("name", VStr "z")]) (Some [("name", VStr "z")])
                          (Options false true false false)) None] in
  length (busy (tasks s')) <= 1 /\ (taken s' = false -> busy (tasks s') = []).
Proof.
  apply (critical_sections_exclude field_match numbered_id [upsert_z; upsert_z] [] 0
           [1]%nat).
  reflexivity.
Defined.

Lemma refused_update_blocks_every_call_witness :
  let cs := [CallUpdate (Given [("count", VStr "x")])
               (Given [("count", VObj [("$inc", VNum 1)])]) Missing;
             CallRemove (Given [("count", VStr "x")]) Missing] in
  let documents := [Doc [("count", VStr "x")]] in
  exists s1,
    run field_match numbered_id [0; 0]%nat (start numbered_id cs documents 0) = Some s1 /\
    tasks s1 !! 0%nat =
      Some (Over (reject (NotNumeric "count" (Some (VStr "x")) (VNum 1)) None)) /\
    disk s1 = documents /\
    taken s1 = true /\
    forall schedule s',
      run field_match numbered_id schedule s1 = Some s' -> schedule = [] /\ s' = s1.
Proof.
  apply (refused_update_blocks_every_call field_match numbered_id
           [CallUpdate (Given [("count", VStr "x")])
              (Given [("count", VObj [("$inc", VNum 1)])]) Missing;
            CallRemove (Given [("count", VStr "x")]) Missing]
           [Doc [("count", VStr "x")]] 0 0
           (Some [("count", VStr "x")]) (Some [("count", VObj [("$inc", VNum 1)])])
           update_defaults None
           (NotNumeric "count" (Some (VStr "x")) (VNum 1))); reflexivity.
Defined.

(** ** The connection *)

Section ConnectFacts.

Context {content : Type}.
Variable join : string -> string -> string.
Variable blank : content.
Variable failing : string -> option string.

Abbreviation connect := (Connection.connect join blank failing).

Abbreviation file_of := (Connection.file_of join).
Abbreviation check := (Connection.check join blank failing).

Lemma each_visits root names :
  Forall (fun n => n ∉ Connection.own_fields) names ->
  Connection.each join root true names = Some (file_of root <$> names).
Proof.
  induction 1 as [|n names Hn _ IH]; simpl; [done|].
  unfold Connection.create, Connection.own_fields in *.
  rewrite (proj2 (String.eqb_neq n "_ioHandler")) by set_solver.
  rewrite (proj2 (String.eqb_neq n "_path")) by set_solver. simpl.
  by rewrite IH.
Qed.

Lemma afterCheck_each root names st :
  foldl (Connection.afterCheck blank failing) st (file_of root <$> names) =
  foldl (check root) st names.
Proof.
  revert st. induction names as [|n names IH]; intros st; simpl; [done|].
  by rewrite IH.
Qed.

Lemma afterCheck_keeps st fullPath :
  st.1 ⊆ (Connection.afterCheck blank failing st fullPath).1.
Proof.
  unfold Connection.afterCheck, Connection.pathExists, Connection.writeFile.
  destruct st as [fs first]. simpl.
  case_bool_decide as Hp; simpl; [done|].
  apply eq_None_not_Some in Hp.
  destruct (failing fullPath); simpl; [done|]. by apply insert_subseteq.
Qed.

Lemma afterChecks_keep fullPaths st :
  st.1 ⊆ (foldl (Connection.afterCheck blank failing) st fullPaths).1.
Proof.
  revert st. induction fullPaths as [|q fullPaths IH]; intros st; simpl; [done|].
  etrans; [apply (afterCheck_keeps st q)|apply IH].
Qed.

Lemma create_frame root st collection :
  let st' := check root st collection in
  st.1 ⊆ st'.1 /\
  (forall p, p <> join root (String.append collection ".json") -> st'.1 !! p = st.1 !! p) /\
  (is_Some (st.2) -> st'.2 = st.2) /\
  (failing (join root (String.append collection ".json")) = None ->
   is_Some (st'.1 !! join root (String.append collection ".json")) /\ st'.2 = st.2).
Proof.
  unfold Connection.check, Connection.file_of, Connection.afterCheck,
    Connection.pathExists, Connection.writeFile.
  destruct st as [fs first]. simpl.
  set (p := join root (String.append collection ".json")).
  case_bool_decide as Hp; simpl.
  - split_and!; try done.
  - apply eq_None_not_Some in Hp.
    destruct (failing p) eqn:Hf; simpl.
    + split_and!; try done. intros [x ->]. done.
    + split_and!; try done.
      * by apply insert_subseteq.
      * intros q Hq. by rewrite lookup_insert_ne.
      * intros _. split; [|done]. rewrite lookup_insert_eq. eauto.
Qed.

Lemma creates_frame root names st :
  let st' := foldl (check root) st names in
  st.1 ⊆ st'.1 /\
  (forall p, (forall n, n ∈ names -> p <> join root (String.append n ".json")) ->
     st'.1 !! p = st.1 !! p) /\
  (is_Some (st.2) -> st'.2 = st.2) /\
  ((forall n, n ∈ names -> failing (join root (String.append n ".json")) = None) ->
   (forall n, n ∈ names -> is_Some (st'.1 !! join root (String.append n ".json"))) /\
   st'.2 = st.2).
Proof.
  revert st. induction names as [|n names IH]; intros st; simpl.
  - split_and!; try done. intros _. split; [|done]. by intros n ?%elem_of_nil.
  - destruct (create_frame root st n) as (Hsub & Hother & Hfirst & Hok).
    destruct (IH (check root st n)) as (Hsub' & Hother' & Hfirst' & Hok').
    simpl in *. split_and!.
    + by etrans.
    + intros p Hp. rewrite Hother'.
      * apply Hother. apply Hp. by left.
      * intros m Hm. apply Hp. by right.
    + intros Hs. rewrite Hfirst'; [by apply Hfirst|]. rewrite Hfirst; done.
    + intros Hall.
      destruct Hok as [Hn Hfst]; [apply Hall; by left|].
      destruct Hok' as [Hnames Hfst']; [intros m Hm; apply Hall; by right|].
      split; [|congruence].
      intros m [->|Hm]%elem_of_cons; [|by apply Hnames].
      destruct Hn as [x Hx]. exists x. by eapply lookup_weaken.
Qed.

(** X22.  [connect] on a root path that does not exist hands the
    callback the invalid-path error, and on an existing root with
    collections that are not an array the invalid-collection-name error;
    in both cases nothing is created. *)
Theorem connect_refuses (path : option string) (collections : option (list string))
    (fs : gmap string content) :
  fs !! Connection.root_of path = None \/ collections = None ->
  connect path collections fs =
    (inl (if Connection.pathExists (Connection.root_of path) fs
          then Connection.InvalidCollectionName
          else Connection.InvalidPath (Connection.root_of path)), fs).
Proof.
  unfold Connection.connect, Connection.pathExists.
  intros [Hroot | ->].
  - rewrite Hroot. rewrite bool_decide_eq_false_2; [done|]. by intros [x ?].
  - by case_bool_decide.
Qed.

(** X23.  [connect] on an existing root with an array of collection
    names, none of them the name of a field of the object itself (line
    76 would replace the field: [_path] and [_ioHandler] are read by the
    iterator), when no [writeFile] fails, hands the callback the object
    with those collections; afterwards the file of every collection
    exists, every path that existed holds what it held (a collection
    file that was there is not rewritten), and no other path has
    appeared. *)
Theorem connect_creates_missing_files (path : option string) (names : list string)
    (fs : gmap string content) :
  is_Some (fs !! Connection.root_of path) ->
  Forall (fun n => n ∉ Connection.own_fields) names ->
  (forall n, n ∈ names ->
     failing (join (Connection.root_of path) (String.append n ".json")) = None) ->
  let '(answer, fs') := connect path (Some names) fs in
  answer = inr names /\
  (forall n, n ∈ names ->
     is_Some (fs' !! join (Connection.root_of path) (String.append n ".json"))) /\
  fs ⊆ fs' /\
  (forall p, (forall n, n ∈ names ->
                p <> join (Connection.root_of path) (String.append n ".json")) ->
     fs' !! p = fs !! p).
Proof.
  intros Hroot Hown Hall. unfold Connection.connect, Connection.pathExists.
  rewrite bool_decide_eq_true_2; [|done].
  rewrite (each_visits _ _ Hown), afterCheck_each.
  destruct (creates_frame (Connection.root_of path) names (fs, None))
    as (Hsub & Hother & _ & Hok).
  destruct (Hok Hall) as [Hnames Hfirst].
  destruct (foldl _ (fs, None) names) as [fs' first]. simpl in *. subst first.
  split_and!; done.
Qed.

(** X24.  [connect] never removes a path nor changes what an existing
    path holds, whatever fails. *)
Theorem connect_keeps_files (path : option string) (collections : option (list string))
    (fs : gmap string content) :
  fs ⊆ (connect path collections fs).2.
Proof.
  unfold Connection.connect. destruct (Connection.pathExists _ fs); [|done].
  destruct collections as [names|]; [|done].
  destruct (Connection.each join _ true names) as [fullPaths|]; [|done].
  pose proof (afterChecks_keep fullPaths (fs, None)) as Hsub.
  by destruct (foldl _ (fs, None) fullPaths) as [fs' [err|]].
Qed.

Lemma creates_partial root names st :
  let st' := foldl (check root) st names in
  (forall n, n ∈ names -> failing (join root (String.append n ".json")) = None ->
     is_Some (st'.1 !! join root (String.append n ".json"))) /\
  (is_Some st.2 \/
   (exists n, n ∈ names /\ st.1 !! join root (String.append n ".json") = None /\
              is_Some (failing (join root (String.append n ".json")))) ->
   is_Some st'.2).
Proof.
  revert st. induction names as [|n names IH]; intros st; simpl.
  - split; [by intros n ?%elem_of_nil|].
    intros [Hs|(n & ?%elem_of_nil & _)]; done.
  - destruct (IH (check root st n)) as [Hmade Herr].
    destruct (creates_frame root names (check root st n)) as (Hsub & _).
    destruct (create_frame root st n) as (_ & Hother & Hfirst & Hok).
    simpl in *. split.
    + intros m [->|Hm]%elem_of_cons Hf; [|by apply Hmade].
      destruct (Hok Hf) as [[x Hx] _]. exists x. by eapply lookup_weaken.
    + intros Hcase. apply Herr.
      destruct Hcase as [Hs|(m & [->|Hm]%elem_of_cons & Hnone & Hfail)].
      * left. rewrite Hfirst; done.
      * left. unfold Connection.check, Connection.file_of, Connection.afterCheck,
          Connection.pathExists, Connection.writeFile.
        rewrite bool_decide_eq_false_2; [|rewrite Hnone; by intros [x ?]].
        destruct Hfail as [e ->]. simpl. by destruct st.2.
      * destruct (decide (join root (String.append m ".json") =
                          join root (String.append n ".json"))) as [Heq|Hne].
        -- left. unfold Connection.check, Connection.file_of, Connection.afterCheck,
          Connection.pathExists, Connection.writeFile.
           rewrite <- Heq.
           rewrite bool_decide_eq_false_2; [|rewrite Hnone; by intros [x ?]].
           destruct Hfail as [e ->]. simpl. by destruct st.2.
        -- right. exists m. split; [done|]. split; [|done].
           by rewrite Hother.
Qed.

(** X25.  When [writeFile] fails for the missing file of some
    collection, on an existing root and with no collection named after a
    field of the object itself, [connect] hands the callback a write
    error; the files of the collections whose write does not fail exist
    afterwards all the same: what was created before or after the
    failure stays. *)
Theorem connect_reports_write_failure (path : option string) (names : list string)
    (fs : gmap string content) (n : string) :
  is_Some (fs !! Connection.root_of path) ->
  Forall (fun n => n ∉ Connection.own_fields) names ->
  n ∈ names ->
  fs !! join (Connection.root_of path) (String.append n ".json") = None ->
  is_Some (failing (join (Connection.root_of path) (String.append n ".json"))) ->
  let '(answer, fs') := connect path (Some names) fs in
  (exists err, answer = inl (Connection.WriteFailure err)) /\
  (forall m, m ∈ names ->
     failing (join (Connection.root_of path) (String.append m ".json")) = None ->
     is_Some (fs' !! join (Connection.root_of path) (String.append m ".json"))).
Proof.
  intros Hroot Hown Hn Hnone Hfail. unfold Connection.connect, Connection.pathExists.
  rewrite bool_decide_eq_true_2; [|done].
  rewrite (each_visits _ _ Hown), afterCheck_each.
  destruct (creates_partial (Connection.root_of path) names (fs, None))
    as [Hmade Herr].
  destruct (foldl _ (fs, None) names) as [fs' first]. simpl in *.
  destruct Herr as [err ->]; [right; eauto|]. eauto.
Qed.

End ConnectFacts.

Lemma connect_refuses_witness :
  Connection.connect (content:=string) (fun a b => String.append a b) "[]"
    (fun _ => None) (Some "/data/") (Some ["users"]) ∅ =
  (inl (Connection.InvalidPath "/data/"), ∅).
Proof.
  pose proof (connect_refuses (fun a b => String.append a b) "[]" (fun _ => None)
                (Some "/data/") (Some ["users"]) ∅ (or_introl eq_refl)) as H.
  exact H.
Defined.

Example connect_collection_named_after_a_field :
  Connection.connect (content:=string) (fun a b => String.append a b) "[]"
    (fun _ => None) None (Some ["users"; "_ioHandler"; "posts"]) {[ "/tmp/" := "" ]} =
  (inl Connection.Uncaught, {[ "/tmp/" := "" ]}).
Proof. vm_compute. reflexivity. Qed.

Lemma connect_creates_missing_files_witness :
  let fs : gmap string string := {[ "/tmp/" := "" ]} in
  let '(answer, fs') :=
    Connection.connect (fun a b => String.append a b) "[]" (fun _ => None) None
      (Some ["users"]) fs in
  answer = inr ["users"] /\
  (forall n, n ∈ ["users"] -> is_Some (fs' !! String.append "/tmp/" (String.append n ".json"))) /\
  fs ⊆ fs' /\
  (forall p, (forall n, n ∈ ["users"] ->
                p <> String.append "/tmp/" (String.append n ".json")) ->
     fs' !! p = fs !! p).
Proof.
  apply (connect_creates_missing_files (fun a b => String.append a b) "[]"
           (fun _ => None) None ["users"] {[ "/tmp/" := "" ]}).
  - exists "". reflexivity.
  - apply (bool_decide_unpack _). vm_compute. exact I.
  - intros n _. reflexivity.
Defined.

Lemma connect_reports_write_failure_witness :
  let fs : gmap string string := {[ "/tmp/" := "" ]} in
  let failing := fun p => if String.eqb p "/tmp/a|.json" then Some "EINVAL" else None in
  let '(answer, fs') :=
    Connection.connect (fun a b => String.append a b) "[]" failing None
      (Some ["a|"; "users"]) fs in
  (exists err, answer = inl (Connection.WriteFailure err)) /\
  (forall m, m ∈ ["a|"; "users"] ->
     failing (String.append "/tmp/" (String.append m ".json")) = None ->
     is_Some (fs' !! String.append "/tmp/" (String.append m ".json"))).
Proof.
  apply (connect_reports_write_failure (fun a b => String.append a b) "[]"
           (fun p => if String.eqb p "/tmp/a|.json" then Some "EINVAL" else None)
           None ["a|"; "users"] {[ "/tmp/" := "" ]} "a|").
  - exists "". reflexivity.
  - apply (bool_decide_unpack _). vm_compute. exact I.
  - apply (bool_decide_unpack _). vm_compute. exact I.
  - reflexivity.
  - exists "EINVAL". reflexivity.
Defined.
